(** * WebHelper: ordered multi-source asset loading

    A shallow embedding of [src/WebHelper.js].  The helper keeps an array of
    source records; [load] copies that array, then walks the copy, asking one
    source at a time over the network until a source answers with a 2xx
    status or the copy is exhausted. *)

From Equations Require Import Equations.
From stdpp Require Import base numbers list strings sorting gmap.

Local Open Scope Z_scope.

(** ** Data *)

(** The part of an [AssetType] that [WebHelper] reads. *)
Record AssetType := mkAssetType {
  name : string;
  runtimeFormat : string
}.

(** A [Buffer]: the body of a response, requested with [encoding: null]. *)
Definition Buffer := list Byte.byte.

(** Modelled from the spec: the [Asset] class ([./Asset], not part of the
    sources at hand).  An asset is constructed empty from its type and id and
    has one mutating operation, which stores the raw bytes together with the
    format they are in. *)
Record Asset := mkAsset {
  assetType : AssetType;
  assetId : string;
  data : option Buffer;
  dataFormat : option string
}.

(** Modelled from the spec: [new Asset(assetType, assetId)], the asset
    constructed empty. *)
Definition new_Asset (t : AssetType) (id : string) : Asset :=
  {| assetType := t; assetId := id; data := None; dataFormat := None |}.

(** Modelled from the spec: [asset.setData(data, dataFormat)], the one
    operation that fills the asset, bytes and format together. *)
Definition setData (a : Asset) (d : Buffer) (fmt : string) : Asset :=
  {| assetType := assetType a; assetId := assetId a;
     data := Some d; dataFormat := Some fmt |}.

(** A [UrlFunction] computes a URL from an asset. *)
Definition UrlFunction := Asset → string.

(** A [SourceRecord]: the names of the asset types a source provides and
    the function computing its URLs. *)
Record SourceRecord := mkSource {
  types : list string;
  urlFunction : UrlFunction
}.

(** What [got] hands to the first callback: the part of a response that
    [load] reads. *)
Record Response := mkResponse {
  status : Z;
  body : Buffer
}.

(** How the promise returned by [got] settles: with a response, or with an
    error. *)
Inductive FetchOutcome :=
| Responded (response : Response)
| Failed (error : string).

(** An entry of the [errors] array: [{url: url, result: ...}]. *)
Record AttemptFailure := mkFailure {
  url : string;
  result : FetchOutcome
}.

(** ** The store of source arrays

    [this.sources] and the copy made by [slice()] are two array objects.
    Arrays live in a heap and are named by locations, so that [push] is an
    update in place seen through every alias. *)

Definition loc := positive.
Abbreviation heap := (gmap loc (list SourceRecord)).

(** The elements of the array at [l]. *)
Definition array_get (h : heap) (l : loc) : list SourceRecord :=
  default [] (h !! l).

(** [[]]: a new, empty array. *)
Definition array_new (h : heap) : loc * heap :=
  let l := fresh (dom h) in (l, <[l := []]> h).

(** [push]: the array at [l] itself grows by one element. *)
Definition array_push (l : loc) (x : SourceRecord) (h : heap) : heap :=
  <[l := array_get h l ++ [x]]> h.

(** [slice()]: a new array with the elements the array at [l] has now. *)
Definition array_slice (l : loc) (h : heap) : loc * heap :=
  let l' := fresh (dom h) in (l', <[l' := array_get h l]> h).

(** [Array.prototype.indexOf] on an array of strings: the first position
    holding the string, or [-1]. *)
Fixpoint indexOf (xs : list string) (x : string) : Z :=
  match xs with
  | [] => -1
  | y :: ys =>
      if decide (y = x) then 0
      else let r := indexOf ys x in if decide (r = -1) then -1 else r + 1
  end.

(** ** WebHelper *)

(** The helper object holds a reference to its array of sources. *)
Record WebHelper := mkWebHelper {
  sources : loc
}.

(** [this.sources = []] *)
Definition constructor (h : heap) : WebHelper * heap :=
  let '(l, h') := array_new h in ({| sources := l |}, h').

(** [this.sources.push({types: types.map(assetType => assetType.name),
    urlFunction: urlFunction})] *)
Definition addSource (this : WebHelper) (ts : list AssetType)
    (f : UrlFunction) (h : heap) : heap :=
  array_push (sources this) {| types := map name ts; urlFunction := f |} h.

(** The [while] loop of [tryNextSource]: advance [sourceIndex] over the
    array until a record lists the wanted type; that record's [urlFunction]
    is kept and the loop is left with the index already past it.  The
    result is the local [urlFunction] ([None] for [undefined]) and the new
    [sourceIndex].  Under the guard [sourceIndex < sources.length] the
    element read is always there. *)
Equations? while_loop (arr : list SourceRecord) (wanted : string)
    (sourceIndex : nat) : option UrlFunction * nat
    by wf (length arr - sourceIndex)%nat lt :=
  while_loop arr wanted sourceIndex
    with decide (sourceIndex < length arr)%nat := {
    | left Hlt with arr !! sourceIndex := {
      | Some source =>
          if decide (0 ≤ indexOf (types source) wanted)
          then (Some (urlFunction source), S sourceIndex)
          else while_loop arr wanted (S sourceIndex)
      | None => (None, sourceIndex) }
    | right _ => (None, sourceIndex)
  }.
Proof. lia. Qed.

(** ** The state of one [load] call

    The promise handed back by [load], and the actions of the call that an
    observer can count: invocations of a source's [urlFunction], requests
    issued through [got], pushes on [errors], the [setData] call and the
    calls of [fulfill] and [reject].  Sources are named by their index in
    the array the call walks. *)

Inductive PromiseState :=
| Pending
| Fulfilled (value : option Asset)
| Rejected (reason : list AttemptFailure).

Inductive Action :=
| CallUrlFunction (i : nat) (a : Asset)
| CallGot (i : nat) (u : string)
| PushError (e : AttemptFailure)
| CallSetData (d : Buffer) (fmt : string)
| CallFulfill (value : option Asset)
| CallReject (reason : list AttemptFailure).

(** The variables closed over by [tryNextSource] and the two callbacks:
    the parameter [assetType], the locals [errors], [sources], [asset] and
    [sourceIndex]; then the [url] whose request is outstanding, the promise
    and the record of actions so far. *)
Record LoadCall := mkLoadCall {
  c_assetType : AssetType;
  errors : list AttemptFailure;
  c_sources : loc;
  asset : Asset;
  sourceIndex : nat;
  awaiting : option string;
  promise : PromiseState;
  log : list Action
}.

(** Add an action to the record. *)
Definition emit (a : Action) (c : LoadCall) : LoadCall :=
  mkLoadCall (c_assetType c) (errors c) (c_sources c) (asset c)
    (sourceIndex c) (awaiting c) (promise c) (log c ++ [a]).

Definition set_sourceIndex (k : nat) (c : LoadCall) : LoadCall :=
  mkLoadCall (c_assetType c) (errors c) (c_sources c) (asset c)
    k (awaiting c) (promise c) (log c).

Definition set_awaiting (u : option string) (c : LoadCall) : LoadCall :=
  mkLoadCall (c_assetType c) (errors c) (c_sources c) (asset c)
    (sourceIndex c) u (promise c) (log c).

(** A promise keeps its first settlement; later calls of [fulfill] or
    [reject] are still calls. *)
Definition resolve_promise (p : PromiseState) (c : LoadCall) : LoadCall :=
  mkLoadCall (c_assetType c) (errors c) (c_sources c) (asset c)
    (sourceIndex c) (awaiting c)
    (match promise c with Pending => p | settled => settled end) (log c).

Definition fulfill (value : option Asset) (c : LoadCall) : LoadCall :=
  emit (CallFulfill value) (resolve_promise (Fulfilled value) c).

Definition reject (reason : list AttemptFailure) (c : LoadCall) : LoadCall :=
  emit (CallReject reason) (resolve_promise (Rejected reason) c).

(** [errors.push({url: url, result: ...})] *)
Definition errors_push (e : AttemptFailure) (c : LoadCall) : LoadCall :=
  emit (PushError e)
    (mkLoadCall (c_assetType c) (errors c ++ [e]) (c_sources c) (asset c)
       (sourceIndex c) (awaiting c) (promise c) (log c)).

(** [asset.setData(d, fmt)] *)
Definition asset_setData (d : Buffer) (fmt : string) (c : LoadCall)
    : LoadCall :=
  emit (CallSetData d fmt)
    (mkLoadCall (c_assetType c) (errors c) (c_sources c)
       (setData (asset c) d fmt)
       (sourceIndex c) (awaiting c) (promise c) (log c)).

(** [got(url, options).then(...)]: the request goes out and the call waits
    for it. *)
Definition got (i : nat) (u : string) (c : LoadCall) : LoadCall :=
  set_awaiting (Some u) (emit (CallGot i u) c).

(** One run of [tryNextSource], up to the point where it either hands a
    request to [got] or settles the promise.  When the loop stops at a
    source, that source sits right before the cursor, at index
    [sourceIndex - 1]; this is the index the log names it by.  A registered
    [urlFunction] is a function, so [if (urlFunction)] asks whether the
    loop stopped at a source. *)
Definition tryNextSource (h : heap) (c : LoadCall) : LoadCall :=
  let '(found, k) :=
    while_loop (array_get h (c_sources c)) (name (c_assetType c))
      (sourceIndex c) in
  let c := set_sourceIndex k c in
  match found with
  | Some urlFunction =>
      let u := urlFunction (asset c) in
      got (pred k) u (emit (CallUrlFunction (pred k) (asset c)) c)
  | None =>
      if decide (0 < length (errors c))%nat
      then reject (errors c) c
      else fulfill None c
  end.

(** The first callback given to [then]. *)
Definition on_response (h : heap) (u : string) (response : Response)
    (c : LoadCall) : LoadCall :=
  if decide (status response < 200 ∨ status response >= 300) then
    let c :=
      if decide (status response ≠ 404)
      then errors_push {| url := u; result := Responded response |} c
      else c in
    tryNextSource h c
  else
    let c := asset_setData (body response) (runtimeFormat (c_assetType c)) c in
    fulfill (Some (asset c)) c.

(** The second callback given to [then]. *)
Definition on_error (h : heap) (u : string) (error : string)
    (c : LoadCall) : LoadCall :=
  tryNextSource h (errors_push {| url := u; result := Failed error |} c).

(** The outstanding request settles and the matching callback runs. *)
Definition settle (h : heap) (o : FetchOutcome) (c : LoadCall) : LoadCall :=
  match awaiting c with
  | None => c
  | Some u =>
      let c := set_awaiting None c in
      match o with
      | Responded response => on_response h u response c
      | Failed error => on_error h u error c
      end
  end.

(** [load]: everything up to the first request (or to settlement, when no
    source serves the type).  The call and the heap with the copied array
    are returned. *)
Definition load (this : WebHelper) (assetType : AssetType) (assetId : string)
    (h : heap) : LoadCall * heap :=
  let '(l, h') := array_slice (sources this) h in
  let c :=
    {| c_assetType := assetType; errors := []; c_sources := l;
       asset := new_Asset assetType assetId; sourceIndex := 0%nat;
       awaiting := None; promise := Pending; log := [] |} in
  (tryNextSource h' c, h').

(** ** Running a call against the network

    The network decides how the request to each source settles.  A call
    asks a source at most once, so an answer per (source index, url) covers
    every way its requests can settle. *)

Definition Network := nat → string → FetchOutcome.

(** Settle the outstanding request, as the network says, until none is
    outstanding. *)
Fixpoint drive (fuel : nat) (net : Network) (h : heap) (c : LoadCall)
    : LoadCall :=
  match fuel with
  | O => c
  | S fuel' =>
      match awaiting c with
      | None => c
      | Some u => drive fuel' net h (settle h (net (pred (sourceIndex c)) u) c)
      end
  end.

(** A whole call: [load], then every request settled as the network says.
    The array length bounds the number of requests. *)
Definition run_load (this : WebHelper) (assetType : AssetType)
    (assetId : string) (net : Network) (h : heap) : LoadCall :=
  let '(c, h') := load this assetType assetId h in
  drive (length (array_get h' (c_sources c))) net h' c.

(** ** A helper in use: registrations interleaved with an open call

    While a call waits for the network the caller may register further
    sources.  A world is the heap, the helper and the open call; an input
    is either a call of [addSource] or the settlement of the outstanding
    request. *)

Record World := mkWorld {
  w_heap : heap;
  w_helper : WebHelper;
  w_call : LoadCall
}.

Inductive Input :=
| DoAddSource (ts : list AssetType) (f : UrlFunction)
| DoSettle (o : FetchOutcome).

Definition step (w : World) (i : Input) : World :=
  match i with
  | DoAddSource ts f =>
      mkWorld (addSource (w_helper w) ts f (w_heap w)) (w_helper w) (w_call w)
  | DoSettle o =>
      mkWorld (w_heap w) (w_helper w) (settle (w_heap w) o (w_call w))
  end.

Definition steps (w : World) (ins : list Input) : World :=
  fold_left step ins w.

Definition start (this : WebHelper) (assetType : AssetType)
    (assetId : string) (h : heap) : World :=
  let '(c, h') := load this assetType assetId h in mkWorld h' this c.

(** ** Notions the statements use *)

(** Source [j] is the first one at or after [k] that lists the type. *)
Definition first_match (arr : list SourceRecord) (wanted : string)
    (k j : nat) (s : SourceRecord) : Prop :=
  (k ≤ j)%nat ∧ arr !! j = Some s ∧ wanted ∈ types s ∧
  ∀ i s', (k ≤ i < j)%nat → arr !! i = Some s' → wanted ∉ types s'.

(** No source at or after [k] lists the type. *)
Definition no_match (arr : list SourceRecord) (wanted : string) (k : nat)
    : Prop :=
  ∀ i s', (k ≤ i)%nat → arr !! i = Some s' → wanted ∉ types s'.

(** The sources that list the type, with their indices, in array order. *)
Definition matching_sources (arr : list SourceRecord) (wanted : string)
    : list (nat * SourceRecord) :=
  filter (λ p, wanted ∈ types p.2) (imap pair arr).

(** The same, from index [k] on. *)
Definition matching_from (arr : list SourceRecord) (wanted : string)
    (k : nat) : list (nat * SourceRecord) :=
  filter (λ p, wanted ∈ types p.2) (drop k (imap pair arr)).

(** The request a call makes to an indexed source, and the [errors] entry
    that request leaves when it fails. *)
Definition request_of (a0 : Asset) (p : nat * SourceRecord) : nat * string :=
  (p.1, urlFunction p.2 a0).

Definition entry_of (net : Network) (a0 : Asset) (p : nat * SourceRecord)
    : AttemptFailure :=
  {| url := urlFunction p.2 a0; result := net p.1 (urlFunction p.2 a0) |}.

(** A settlement that [load] records in [errors]: a transport error, or a
    response whose status is neither 2xx nor 404. *)
Definition is_failure (o : FetchOutcome) : bool :=
  match o with
  | Responded r =>
      bool_decide ((status r < 200 ∨ 300 ≤ status r) ∧ status r ≠ 404)
  | Failed _ => true
  end.

(** The entry a request leaves in [errors], if it leaves one. *)
Definition failure_of (net : Network) (iu : nat * string)
    : option AttemptFailure :=
  if is_failure (net iu.1 iu.2)
  then Some {| url := iu.2; result := net iu.1 iu.2 |}
  else None.

(** The requests of a log, as (source index, url), in the order issued. *)
Definition fetches (L : list Action) : list (nat * string) :=
  omap (λ a, match a with CallGot i u => Some (i, u) | _ => None end) L.

(** The sources whose [urlFunction] a log shows invoked, in order. *)
Definition invocations (L : list Action) : list nat :=
  omap (λ a, match a with CallUrlFunction i _ => Some i | _ => None end) L.

Definition is_settlement (a : Action) : bool :=
  match a with CallFulfill _ | CallReject _ => true | _ => false end.

Definition is_setData (a : Action) : bool :=
  match a with CallSetData _ _ => true | _ => false end.

Definition is_push (a : Action) : bool :=
  match a with PushError _ => true | _ => false end.

(** How often a log calls [fulfill] or [reject], and [setData]. *)
Definition settlements (L : list Action) : nat :=
  length (filter (λ a, is_settlement a = true) L).

Definition setData_calls (L : list Action) : nat :=
  length (filter (λ a, is_setData a = true) L).

(** A call is either waiting on a request, with the promise pending and
    neither [fulfill] nor [reject] called yet, or it has settled, by one
    such call. *)
Definition call_ok (c : LoadCall) : Prop :=
  match awaiting c with
  | Some _ => promise c = Pending ∧ settlements (log c) = 0%nat
  | None => promise c ≠ Pending ∧ settlements (log c) = 1%nat
  end.

(** The record an [addSource] input appends. *)
Definition registered (i : Input) : option SourceRecord :=
  match i with
  | DoAddSource ts f => Some {| types := map name ts; urlFunction := f |}
  | DoSettle _ => None
  end.

(** The settlements among the inputs. *)
Definition settled (i : Input) : option FetchOutcome :=
  match i with
  | DoAddSource _ _ => None
  | DoSettle o => Some o
  end.

(** ** A sample helper

    A helper with three sources, built with [constructor] and [addSource],
    and a few networks to run it against. *)

Module Sample.

Definition Project := mkAssetType "Project" "JSON".
Definition Sound := mkAssetType "Sound" "WAV".
Definition ImageBitmap := mkAssetType "ImageBitmap" "PNG".

Definition assetHost : UrlFunction :=
  λ a, ("https://assets.example/" +:+ assetId a)%string.
Definition projectHost : UrlFunction :=
  λ a, ("https://projects.example/" +:+ assetId a)%string.
Definition mirror : UrlFunction :=
  λ a, ("https://mirror.example/" +:+ assetId a)%string.

Definition helper : WebHelper := (constructor ∅).1.

Definition registry : heap :=
  addSource helper [Project; Sound] mirror
    (addSource helper [Project] projectHost
       (addSource helper [Sound] assetHost (constructor ∅).2)).

Definition entries : list SourceRecord :=
  [ {| types := ["Sound"]; urlFunction := assetHost |};
    {| types := ["Project"]; urlFunction := projectHost |};
    {| types := ["Project"; "Sound"]; urlFunction := mirror |} ]%string.

Definition payload : Buffer := [Byte.x7b; Byte.x7d].

Definition answer (st : Z) (d : Buffer) : FetchOutcome :=
  Responded {| status := st; body := d |}.

Definition net_ok : Network := λ _ _, answer 200 payload.
Definition net_missing : Network := λ _ _, answer 404 [].
Definition net_down : Network := λ _ _, answer 500 [].
Definition net_miss_then_ok : Network :=
  λ i _, if decide (i = 1%nat) then answer 404 [] else answer 200 payload.

End Sample.

(** ** Further notions *)

(** A settlement that ends the search: a response with a 2xx status. *)
Definition is_success (o : FetchOutcome) : bool :=
  match o with
  | Responded r => bool_decide (200 ≤ status r < 300)
  | Failed _ => false
  end.

(** The requests a call makes, read off the sources that list the type:
    one source after the other, up to and including the first whose request
    is answered with a 2xx status. *)
Fixpoint asked (net : Network) (a0 : Asset) (cs : list (nat * SourceRecord))
    : list (nat * string) :=
  match cs with
  | [] => []
  | p :: cs =>
      request_of a0 p ::
      if is_success (net p.1 (urlFunction p.2 a0)) then []
      else asked net a0 cs
  end.

(** What holds of a call at every moment, with respect to the array
    [arr] that the helper had when [load] was invoked: the call is for type
    [t], the array it walks holds [arr], the asset is still the empty [a0]
    while a request is outstanding, the requests made so far followed by
    those of the listing sources from the cursor on are the requests of all
    the listing sources of [arr], a request has been made if [arr] has a
    listing source at all, and every request follows the invocation of that
    source's [urlFunction]. *)
Definition snapshot_inv (h : heap) (arr : list SourceRecord)
    (t : AssetType) (a0 : Asset) (c : LoadCall) : Prop :=
  c_assetType c = t ∧
  array_get h (c_sources c) = arr ∧
  (awaiting c ≠ None → asset c = a0) ∧
  map (request_of a0) (matching_sources arr (name t)) =
    fetches (log c) ++
    map (request_of a0) (matching_from arr (name t) (sourceIndex c)) ∧
  (matching_sources arr (name t) ≠ [] → fetches (log c) ≠ []) ∧
  invocations (log c) = (fetches (log c)).*1.

(** The entries a log shows pushed on [errors], in order. *)
Definition pushed (L : list Action) : list AttemptFailure :=
  omap (λ a, match a with PushError e => Some e | _ => None end) L.

(** Two more networks for the sample helper: the first source listing
    ["Project"] misses and the second is down; the first is unreachable and
    the second answers. *)
Module Sample2.

Definition net_miss_then_down : Network :=
  λ i _, if decide (i = 1%nat) then Sample.answer 404 []
         else Sample.answer 500 [].

Definition net_error_then_ok : Network :=
  λ i _, if decide (i = 1%nat) then Failed "ETIMEDOUT"
         else Sample.answer 200 Sample.payload.

End Sample2.

(** ** The course of a call

  [resolves k E acts E' a' p]: with the cursor at [k], the failures [E]
  recorded and the asset still empty, the rest of the call performs
  [acts] and ends with failures [E'], asset [a'] and promise [p]. *)

Section Resolution.
Variable arr : list SourceRecord.
Variable t : AssetType.
Variable a0 : Asset.
Variable net : Network.

Inductive resolves : nat → list AttemptFailure → list Action →
    list AttemptFailure → Asset → PromiseState → Prop :=
| res_null k :
    no_match arr (name t) k →
    resolves k [] [CallFulfill None] [] a0 (Fulfilled None)
| res_reject k E :
    no_match arr (name t) k → E ≠ [] →
    resolves k E [CallReject E] E a0 (Rejected E)
| res_success k E j s r :
    first_match arr (name t) k j s →
    net j (urlFunction s a0) = Responded r →
    200 ≤ status r < 300 →
    resolves k E
      [CallUrlFunction j a0; CallGot j (urlFunction s a0);
       CallSetData (body r) (runtimeFormat t);
       CallFulfill (Some (setData a0 (body r) (runtimeFormat t)))]
      E (setData a0 (body r) (runtimeFormat t))
      (Fulfilled (Some (setData a0 (body r) (runtimeFormat t))))
| res_miss k E j s r acts E' a' p :
    first_match arr (name t) k j s →
    net j (urlFunction s a0) = Responded r →
    status r = 404 →
    resolves (S j) E acts E' a' p →
    resolves k E
      (CallUrlFunction j a0 :: CallGot j (urlFunction s a0) :: acts)
      E' a' p
| res_status k E j s r acts E' a' p :
    first_match arr (name t) k j s →
    net j (urlFunction s a0) = Responded r →
    status r < 200 ∨ 300 ≤ status r → status r ≠ 404 →
    resolves (S j) (E ++ [mkFailure (urlFunction s a0) (Responded r)])
      acts E' a' p →
    resolves k E
      (CallUrlFunction j a0 :: CallGot j (urlFunction s a0) ::
       PushError (mkFailure (urlFunction s a0) (Responded r)) :: acts)
      E' a' p
| res_failed k E j s err acts E' a' p :
    first_match arr (name t) k j s →
    net j (urlFunction s a0) = Failed err →
    resolves (S j) (E ++ [mkFailure (urlFunction s a0) (Failed err)])
      acts E' a' p →
    resolves k E
      (CallUrlFunction j a0 :: CallGot j (urlFunction s a0) ::
       PushError (mkFailure (urlFunction s a0) (Failed err)) :: acts)
      E' a' p.

End Resolution.

(** Unfold the updates of a call's state down to the record. *)
Ltac call_simpl :=
  cbv [fulfill reject errors_push asset_setData got emit resolve_promise
       set_awaiting set_sourceIndex c_assetType errors c_sources asset
       sourceIndex awaiting promise log]; simpl.

(** Two readings of the same request's settlement agree. *)
Ltac same_answer :=
  simplify_eq;
  repeat match goal with
  | H1 : ?net ?i ?u = _, H2 : ?net ?i ?u = _ |- _ =>
      rewrite H1 in H2; simplify_eq
  end.

(** ** The scan *)

Lemma indexOf_ge_m1 xs x : -1 ≤ indexOf xs x.
Proof.
  induction xs as [|y ys IH]; simpl; [lia|].
  repeat case_decide; lia.
Qed.

Lemma indexOf_elem_of xs x : 0 ≤ indexOf xs x ↔ x ∈ xs.
Proof.
  induction xs as [|y ys IH]; simpl.
  - split; [lia | intros H; inversion H].
  - pose proof (indexOf_ge_m1 ys x). rewrite elem_of_cons.
    destruct (decide (y = x)) as [->|Hne].
    + split; [intros _; by left | lia].
    + destruct (decide (indexOf ys x = -1)) as [Hm|Hm]; split; intros H1.
      * lia.
      * destruct H1 as [->|Hin]; [done|]. apply IH in Hin. lia.
      * right. apply IH. lia.
      * lia.
Qed.

Lemma while_loop_spec arr wanted k :
  match while_loop arr wanted k with
  | (Some f, k') =>
      ∃ j s, k' = S j ∧ first_match arr wanted k j s ∧ f = urlFunction s
  | (None, k') => (k ≤ k')%nat ∧ no_match arr wanted k
  end.
Proof.
  funelim (while_loop arr wanted k).
  all: try (rewrite <- Heqcall; clear Heqcall).
  - split; [lia|]. intros i s' Hi Hs'. apply lookup_lt_Some in Hs'. lia.
  - destruct (decide (0 ≤ indexOf (types source) wanted)) as [Hm|Hm].
    + exists sourceIndex0, source. split; [done|]. split; [|done].
      split; [lia|]. split; [done|]. split; [by apply indexOf_elem_of|].
      intros; lia.
    + specialize (H Hm). rewrite indexOf_elem_of in Hm.
      destruct (while_loop arr wanted (S sourceIndex0)) as [[f|] k'].
      * destruct H as (j & s & -> & (Hj & Hs & Hin & Hbefore) & ->).
        exists j, s. split; [done|]. split; [|done].
        split; [lia|]. split; [done|]. split; [done|].
        intros i s' Hi Hs'. destruct (decide (i = sourceIndex0)) as [->|Hne].
        -- congruence.
        -- apply (Hbefore i s'); [lia|done].
      * destruct H as [Hk Hno]. split; [lia|].
        intros i s' Hi Hs'. destruct (decide (i = sourceIndex0)) as [->|Hne].
        -- congruence.
        -- apply (Hno i s'); [lia|done].
  - apply lookup_ge_None in Heq. lia.
Qed.

(** ** Every run is a course *)

Section Adequacy.
Variable arr : list SourceRecord.
Variable t : AssetType.
Variable a0 : Asset.
Variable net : Network.

(** Every run of the machine is such a course, and the fuel given to
    [drive] is enough for it to reach the end. *)
Lemma drive_resolves (h : heap) (n : nat) :
  ∀ (fuel : nat) (c : LoadCall),
    (length arr - sourceIndex c ≤ n)%nat → (n ≤ fuel)%nat →
    array_get h (c_sources c) = arr →
    c_assetType c = t → asset c = a0 →
    awaiting c = None → promise c = Pending →
    ∃ acts E' a' p k',
      resolves arr t a0 net (sourceIndex c) (errors c) acts E' a' p ∧
      (sourceIndex c ≤ k')%nat ∧
      drive fuel net h (tryNextSource h c) =
        mkLoadCall t E' (c_sources c) a' k' None p (log c ++ acts).
Proof.
  induction n as [|n IH]; intros fuel c Hn Hfuel Harr Ht Ha Haw Hp.
  all: destruct c as [t' E l a k aw pr L]; simpl in *; subst t' a aw pr.
  all: unfold tryNextSource; simpl; rewrite Harr.
  all: pose proof (while_loop_spec arr (name t) k) as Hw.
  all: destruct (while_loop arr (name t) k) as [[f|] k']; simpl.
  all: try (destruct Hw as [Hk Hno]; destruct E as [|e E]; simpl;
            [ exists [CallFulfill None], [], a0, (Fulfilled None), k'
            | exists [CallReject (e :: E)], (e :: E), a0,
                (Rejected (e :: E)), k' ];
            (split; [by constructor|]); (split; [done|]);
            by destruct fuel).
  all: destruct Hw as (j & s & -> & Hfm & ->).
  all: pose proof Hfm as (Hkj & Hs%lookup_lt_Some & _).
  { lia. }
  destruct fuel as [|fuel]; [lia|]. simpl.
  unfold settle; simpl.
  destruct (net j (urlFunction s a0)) as [r|err] eqn:Hnet.
  - unfold on_response; simpl.
    destruct (decide (status r < 200 ∨ status r >= 300)) as [Hout|Hin].
    + destruct (decide (status r ≠ 404)) as [Hne|Heq].
      * match goal with |- context [drive ?f net h (tryNextSource h ?c)] =>
          destruct (IH f c) as (acts & E' & a' & p & k' & Hres & Hk & Hrun)
        end; simpl; try done; try lia.
        simpl in *. rewrite Hrun.
        eexists _, E', a', p, k'. split; [|split; [lia|]].
        -- eapply res_status; eauto. lia.
        -- f_equal. by rewrite <- !app_assoc.
      * match goal with |- context [drive ?f net h (tryNextSource h ?c)] =>
          destruct (IH f c) as (acts & E' & a' & p & k' & Hres & Hk & Hrun)
        end; simpl; try done; try lia.
        simpl in *. rewrite Hrun.
        eexists _, E', a', p, k'. split; [|split; [lia|]].
        -- eapply res_miss; eauto. lia.
        -- f_equal. by rewrite <- !app_assoc.
    + eexists _, E, _, _, (S j). split; [|split; [lia|]].
      * eapply res_success; eauto. lia.
      * destruct fuel; call_simpl; f_equal; by rewrite <- ?app_assoc.
  - unfold on_error; simpl.
    match goal with |- context [drive ?f net h (tryNextSource h ?c)] =>
      destruct (IH f c) as (acts & E' & a' & p & k' & Hres & Hk & Hrun)
    end; simpl; try done; try lia.
    simpl in *. rewrite Hrun.
    eexists _, E', a', p, k'. split; [|split; [lia|]].
    + eapply res_failed; eauto.
    + f_equal. by rewrite <- !app_assoc.
Qed.
End Adequacy.

(** A whole call, as a course from cursor [0] with no failure recorded. *)
Lemma run_load_resolves this t id net h :
  ∃ acts E' a' p k',
    resolves (array_get h (sources this)) t (new_Asset t id) net
      0 [] acts E' a' p ∧
    run_load this t id net h =
      mkLoadCall t E' (fresh (dom h)) a' k' None p acts.
Proof.
  unfold run_load, load, array_slice.
  set (l := fresh (dom h)). set (arr := array_get h (sources this)).
  set (h' := <[l := arr]> h).
  set (c0 := mkLoadCall t [] l (new_Asset t id) 0 None Pending []).
  assert (Harr : array_get h' l = arr).
  { unfold array_get, h'. by rewrite lookup_insert_eq. }
  assert (Hc : c_sources (tryNextSource h' c0) = l).
  { unfold tryNextSource. by destruct (while_loop _ _ _) as [[f|] k]. }
  rewrite Hc, Harr.
  destruct (drive_resolves arr t (new_Asset t id) net h' (length arr)
              (length arr) c0) as (acts & E' & a' & p & k' & Hres & _ & Hrun);
    simpl; try done; try lia.
  exists acts, E', a', p, k'. split; [done|]. by rewrite Hrun.
Qed.

(** ** Increasing lists of indices *)

Lemma StronglySorted_lt_le (l : list nat) :
  StronglySorted lt l → StronglySorted le l.
Proof.
  induction 1 as [|x l Hl IH Hx]; constructor; [done|].
  eapply Forall_impl; [exact Hx|]. intros y Hy. simpl in Hy. lia.
Qed.

Lemma StronglySorted_lt_NoDup (l : list nat) :
  StronglySorted lt l → NoDup l.
Proof.
  induction 1 as [|x l Hl IH Hx]; constructor; [|done].
  intros Hin. rewrite Forall_forall in Hx. specialize (Hx x Hin). lia.
Qed.

Lemma increasing_length (n : nat) (l : list nat) :
  StronglySorted lt l → ∀ m, Forall (λ i, (m ≤ i < n)%nat) l →
  (length l ≤ n - m)%nat.
Proof.
  induction 1 as [|x l Hl IH Hx]; intros m Hb; simpl; [lia|].
  apply Forall_cons in Hb as [Hxb Hb].
  assert (Hl' : Forall (λ i, (S x ≤ i < n)%nat) l).
  { rewrite Forall_forall in Hx, Hb |- *. intros i Hi.
    specialize (Hx i Hi). specialize (Hb i Hi). simpl in *. lia. }
  specialize (IH (S x) Hl'). lia.
Qed.

(** ** Facts about courses *)

Section Course.
Variable arr : list SourceRecord.
Variable t : AssetType.
Variable a0 : Asset.
Variable net : Network.

Lemma first_match_unique k j s j' s' :
  first_match arr (name t) k j s → first_match arr (name t) k j' s' →
  j = j' ∧ s = s'.
Proof.
  intros (Hk & Hs & Hin & Hb) (Hk' & Hs' & Hin' & Hb').
  assert (j = j') as ->.
  { destruct (decide (j < j')%nat) as [Hlt|Hge].
    - exfalso. apply (Hb' j s); [lia|done|done].
    - destruct (decide (j' < j)%nat) as [Hlt|Hge'].
      + exfalso. apply (Hb j' s'); [lia|done|done].
      + lia. }
  split; [done|congruence].
Qed.

Lemma first_match_no_match k j s :
  first_match arr (name t) k j s → no_match arr (name t) k → False.
Proof. intros (Hk & Hs & Hin & _) Hno. by apply (Hno j s). Qed.

Lemma no_match_forall :
  (∀ s, s ∈ arr → name t ∉ types s) → ∀ k, no_match arr (name t) k.
Proof.
  intros Hall k i s _ Hs. apply Hall. by eapply list_elem_of_lookup_2.
Qed.

(** Only sources that list the type are asked, each with the url its own
    [urlFunction] computes for the empty asset, none before the cursor. *)
Lemma resolves_fetches k E acts E' a' p :
  resolves arr t a0 net k E acts E' a' p →
  Forall (λ iu, (k ≤ iu.1)%nat ∧
            ∃ s, arr !! iu.1 = Some s ∧ name t ∈ types s ∧
                 iu.2 = urlFunction s a0)
    (fetches acts).
Proof.
  induction 1 as [k Hno|k E Hno HE|k E j s r Hfm Hnet Hst
    |k E j s r acts E' a' p Hfm Hnet Hst Hres IH
    |k E j s r acts E' a' p Hfm Hnet Hst Hne Hres IH
    |k E j s err acts E' a' p Hfm Hnet Hres IH]; simpl.
  1,2: by constructor.
  all: pose proof Hfm as (Hkj & Hs & Hin & _).
  all: constructor; [simpl; split; [lia|by exists s]|].
  1: by constructor.
  all: eapply Forall_impl; [exact IH|].
  all: intros [i u] [Hi Hex]; simpl in *; split; [lia|done].
Qed.

(** Each request follows an invocation of the same source's
    [urlFunction]. *)
Lemma resolves_invocations k E acts E' a' p :
  resolves arr t a0 net k E acts E' a' p →
  invocations acts = (fetches acts).*1.
Proof. induction 1; simpl; by f_equal. Qed.

(** The indices asked grow strictly. *)
Lemma resolves_sorted k E acts E' a' p :
  resolves arr t a0 net k E acts E' a' p →
  StronglySorted lt (fetches acts).*1.
Proof.
  induction 1 as [k Hno|k E Hno HE|k E j s r Hfm Hnet Hst
    |k E j s r acts E' a' p Hfm Hnet Hst Hres IH
    |k E j s r acts E' a' p Hfm Hnet Hst Hne Hres IH
    |k E j s err acts E' a' p Hfm Hnet Hres IH]; simpl.
  1,2: by constructor.
  1: by repeat constructor.
  all: constructor; [done|].
  all: apply resolves_fetches in Hres.
  all: apply Forall_fmap; eapply Forall_impl; [exact Hres|].
  all: intros [i u] [Hi _]; simpl in *; lia.
Qed.

(** A course calls [fulfill] or [reject] once, as its last action, and
    the promise holds what that call was given. *)
Lemma resolves_settles k E acts E' a' p :
  resolves arr t a0 net k E acts E' a' p →
  settlements acts = 1%nat ∧
  ∃ L, (acts = L ++ [CallFulfill None] ∧ p = Fulfilled None
        ∨ (∃ a, acts = L ++ [CallFulfill (Some a)] ∧ p = Fulfilled (Some a))
        ∨ acts = L ++ [CallReject E'] ∧ p = Rejected E').
Proof.
  induction 1 as [k Hno|k E Hno HE|k E j s r Hfm Hnet Hst
    |k E j s r acts E' a' p Hfm Hnet Hst Hres IH
    |k E j s r acts E' a' p Hfm Hnet Hst Hne Hres IH
    |k E j s err acts E' a' p Hfm Hnet Hres IH].
  - split; [done|]. exists []. by left.
  - split; [done|]. exists []. by right; right.
  - split; [done|]. eexists [_; _; _]. right; left. by eexists.
  - destruct IH as [Hone [L HL]]. split; [done|].
    eexists (_ :: _ :: L). simpl.
    destruct HL as [[-> ->]|[[a [-> ->]]|[-> ->]]];
      [by left|right; left; by exists a|by right; right].
  - destruct IH as [Hone [L HL]]. split; [done|].
    eexists (_ :: _ :: _ :: L). simpl.
    destruct HL as [[-> ->]|[[a [-> ->]]|[-> ->]]];
      [by left|right; left; by exists a|by right; right].
  - destruct IH as [Hone [L HL]]. split; [done|].
    eexists (_ :: _ :: _ :: L). simpl.
    destruct HL as [[-> ->]|[[a [-> ->]]|[-> ->]]];
      [by left|right; left; by exists a|by right; right].
Qed.

Lemma elem_of_fetches L i u : (i, u) ∈ fetches L ↔ CallGot i u ∈ L.
Proof.
  unfold fetches. rewrite list_elem_of_omap. split.
  - intros (x & Hx & Heq). destruct x; inversion Heq; by subst.
  - intros Hin. by exists (CallGot i u).
Qed.

(** The failures at the end are those at the start, then one entry for
    each request that settled as a failure, in the order asked. *)
Lemma resolves_errors k E acts E' a' p :
  resolves arr t a0 net k E acts E' a' p →
  E' = E ++ omap (failure_of net) (fetches acts).
Proof.
  induction 1 as [k Hno|k E Hno HE|k E j s r Hfm Hnet Hst
    |k E j s r acts E' a' p Hfm Hnet Hst Hres IH
    |k E j s r acts E' a' p Hfm Hnet Hst Hne Hres IH
    |k E j s err acts E' a' p Hfm Hnet Hres IH]; simpl.
  1,2: by rewrite ?app_nil_r.
  all: unfold failure_of at 1; simpl; rewrite Hnet; simpl.
  - rewrite bool_decide_eq_false_2 by lia. by rewrite app_nil_r.
  - rewrite bool_decide_eq_false_2 by lia. done.
  - rewrite bool_decide_eq_true_2 by lia. rewrite IH.
    by rewrite <- app_assoc.
  - rewrite IH. by rewrite <- app_assoc.
Qed.

(** First success wins. *)
Lemma resolves_success k E acts E' a' p i u r :
  resolves arr t a0 net k E acts E' a' p →
  CallGot i u ∈ acts → net i u = Responded r → 200 ≤ status r < 300 →
  let a := setData a0 (body r) (runtimeFormat t) in
  p = Fulfilled (Some a) ∧ a' = a ∧
  (∃ L, acts = L ++ [CallGot i u; CallSetData (body r) (runtimeFormat t);
                     CallFulfill (Some a)]) ∧
  Forall (λ iu, (iu.1 ≤ i)%nat) (fetches acts).
Proof.
  intros Hres Hin Hnet Hst a. subst a.
  induction Hres as [k Hno|k E Hno HE|k E j s r0 Hfm Hnet0 Hst0
    |k E j s r0 acts E' a' p Hfm Hnet0 Hst0 Hres IH
    |k E j s r0 acts E' a' p Hfm Hnet0 Hst0 Hne Hres IH
    |k E j s err acts E' a' p Hfm Hnet0 Hres IH].
  1,2: apply list_elem_of_singleton in Hin; done.
  - rewrite !elem_of_cons in Hin.
    destruct Hin as [?|[Heq|[?|[?|Hnil]]]]; try done; [|inversion Hnil].
    simplify_eq. assert (r0 = r) as -> by congruence.
    split; [done|]. split; [done|]. split.
    + by eexists [_].
    + simpl. by repeat constructor.
  - rewrite !elem_of_cons in Hin. destruct Hin as [?|[Heq|Hin]]; [done| |].
    { simplify_eq. assert (r0 = r) as -> by congruence. lia. }
    destruct (IH Hin) as (-> & -> & [L ->] & Hall).
    split; [done|]. split; [done|]. split; [by eexists (_ :: _ :: L)|].
    simpl. constructor; [|done]. simpl.
    apply resolves_fetches in Hres. apply elem_of_fetches in Hin.
    rewrite Forall_forall in Hres. specialize (Hres _ Hin). simpl in Hres.
    lia.
  - rewrite !elem_of_cons in Hin.
    destruct Hin as [?|[Heq|[?|Hin]]]; [done| |done|].
    { simplify_eq. assert (r0 = r) as -> by congruence. lia. }
    destruct (IH Hin) as (-> & -> & [L ->] & Hall).
    split; [done|]. split; [done|]. split; [by eexists (_ :: _ :: _ :: L)|].
    simpl. constructor; [|done]. simpl.
    apply resolves_fetches in Hres. apply elem_of_fetches in Hin.
    rewrite Forall_forall in Hres. specialize (Hres _ Hin). simpl in Hres.
    lia.
  - rewrite !elem_of_cons in Hin.
    destruct Hin as [?|[Heq|[?|Hin]]]; [done| |done|].
    { simplify_eq. congruence. }
    destruct (IH Hin) as (-> & -> & [L ->] & Hall).
    split; [done|]. split; [done|]. split; [by eexists (_ :: _ :: _ :: L)|].
    simpl. constructor; [|done]. simpl.
    apply resolves_fetches in Hres. apply elem_of_fetches in Hin.
    rewrite Forall_forall in Hres. specialize (Hres _ Hin). simpl in Hres.
    lia.
Qed.

Lemma matching_from_first k j s :
  first_match arr (name t) k j s →
  matching_from arr (name t) k = (j, s) :: matching_from arr (name t) (S j).
Proof.
  remember (j - k)%nat as d eqn:Hd. revert k Hd.
  induction d as [|d IH]; intros k Hd (Hkj & Hs & Hin & Hb); unfold matching_from.
  - assert (k = j) as -> by lia.
    rewrite (drop_S _ (j, s)) by (by rewrite list_lookup_imap, Hs).
    by rewrite filter_cons_True.
  - destruct (lookup_lt_is_Some_2 arr k) as [s' Hs'].
    { apply lookup_lt_Some in Hs. lia. }
    rewrite (drop_S _ (k, s')) by (by rewrite list_lookup_imap, Hs').
    rewrite filter_cons_False by (simpl; apply (Hb k s'); [lia|done]).
    apply IH; [lia|]. split; [lia|]. split; [done|]. split; [done|].
    intros i s'' Hi. apply Hb. lia.
Qed.

Lemma matching_from_none k :
  no_match arr (name t) k → matching_from arr (name t) k = [].
Proof.
  intros Hno. unfold matching_from.
  assert (Hall : Forall (λ p, name t ∉ types p.2) (drop k (imap pair arr))).
  { apply Forall_forall. intros [i s] Hin.
    apply list_elem_of_lookup in Hin as [n Hn].
    rewrite lookup_drop, list_lookup_imap in Hn.
    destruct (arr !! (k + n)%nat) as [s'|] eqn:Hs'; simplify_eq/=.
    apply (Hno (k + n)%nat s); [lia|done]. }
  induction Hall as [|p l Hp _ IH]; [done|].
  by rewrite filter_cons_False.
Qed.

(** When every source asked fails, each matching source from the cursor
    on is asked and leaves its entry, and a non-empty list is what the
    call rejects with. *)
Lemma resolves_all_fail k E acts E' a' p :
  resolves arr t a0 net k E acts E' a' p →
  (∀ i s, (k ≤ i)%nat → arr !! i = Some s → name t ∈ types s →
          is_failure (net i (urlFunction s a0)) = true) →
  E' = E ++ map (entry_of net a0) (matching_from arr (name t) k) ∧
  a' = a0 ∧
  fetches acts = map (request_of a0) (matching_from arr (name t) k) ∧
  (E' ≠ [] → p = Rejected E' ∧ ∃ L, acts = L ++ [CallReject E']).
Proof.
  induction 1 as [k Hno|k E Hno HE|k E j s r Hfm Hnet Hst
    |k E j s r acts E' a' p Hfm Hnet Hst Hres IH
    |k E j s r acts E' a' p Hfm Hnet Hst Hne Hres IH
    |k E j s err acts E' a' p Hfm Hnet Hres IH]; intros Hfail.
  1,2: rewrite (matching_from_none _ Hno); simpl; rewrite ?app_nil_r.
  1,2: repeat split; try done; by exists [].
  all: pose proof Hfm as (Hkj & Hs & Hin & _).
  all: pose proof (Hfail j s Hkj Hs Hin) as Hf; rewrite Hnet in Hf.
  1,2: simpl in Hf; apply bool_decide_eq_true in Hf; lia.
  all: rewrite (matching_from_first _ _ _ Hfm); simpl.
  all: change (entry_of net a0 (j, s))
         with (mkFailure (urlFunction s a0) (net j (urlFunction s a0))).
  all: change (request_of a0 (j, s)) with (j, urlFunction s a0).
  all: rewrite Hnet.
  all: destruct IH as (HE' & -> & Hfe & Hrej);
    [intros i s' Hi; apply Hfail; lia|].
  all: rewrite <- app_assoc in HE'; simpl in HE'.
  all: split; [done|]; split; [done|]; split; [by rewrite Hfe|].
  all: intros Hne'; destruct (Hrej Hne') as [-> [L ->]].
  all: split; [done|]; by eexists (_ :: _ :: _ :: L).
Qed.

(** When every source asked answers 404, nothing is recorded and the
    call fulfills with [null]. *)
Lemma resolves_all_404 k E acts E' a' p :
  resolves arr t a0 net k E acts E' a' p → E = [] →
  (∀ i s, (k ≤ i)%nat → arr !! i = Some s → name t ∈ types s →
          ∃ r, net i (urlFunction s a0) = Responded r ∧ status r = 404) →
  E' = [] ∧ a' = a0 ∧ p = Fulfilled None ∧
  fetches acts = map (request_of a0) (matching_from arr (name t) k) ∧
  (∃ L, acts = L ++ [CallFulfill None]) ∧
  Forall (λ a, is_push a = false ∧ ∀ reason, a ≠ CallReject reason) acts.
Proof.
  induction 1 as [k Hno|k E Hno HE|k E j s r Hfm Hnet Hst
    |k E j s r acts E' a' p Hfm Hnet Hst Hres IH
    |k E j s r acts E' a' p Hfm Hnet Hst Hne Hres IH
    |k E j s err acts E' a' p Hfm Hnet Hres IH]; intros HE0 Hmiss.
  - rewrite (matching_from_none _ Hno). repeat split; try done.
    + by exists [].
    + by repeat constructor.
  - done.
  - destruct Hfm as (Hkj & Hs & Hin & _).
    destruct (Hmiss j s Hkj Hs Hin) as (r' & Hr' & Hst').
    rewrite Hnet in Hr'. simplify_eq. lia.
  - rewrite (matching_from_first _ _ _ Hfm); simpl.
    pose proof Hfm as (Hkj & _).
    destruct IH as (-> & -> & -> & Hfe & [L ->] & Hall);
      [done|intros i s' Hi; apply Hmiss; lia|].
    unfold request_of at 1; simpl. rewrite Hfe.
    repeat split; try done.
    + by eexists (_ :: _ :: L).
    + by repeat (constructor; [done|]).
  - destruct Hfm as (Hkj & Hs & Hin & _).
    destruct (Hmiss j s Hkj Hs Hin) as (r' & Hr' & Hst').
    rewrite Hnet in Hr'. by simplify_eq.
  - destruct Hfm as (Hkj & Hs & Hin & _).
    destruct (Hmiss j s Hkj Hs Hin) as (r' & Hr' & Hst').
    rewrite Hnet in Hr'. by simplify_eq.
Qed.

(** What a course does first, read off the source the scan stops at and
    the way its request settles. *)
Lemma resolves_inv k E acts E' a' p j s :
  resolves arr t a0 net k E acts E' a' p →
  first_match arr (name t) k j s →
  let u := urlFunction s a0 in
  match net j u with
  | Responded r =>
      if decide (200 ≤ status r < 300) then
        acts = [CallUrlFunction j a0; CallGot j u;
                CallSetData (body r) (runtimeFormat t);
                CallFulfill (Some (setData a0 (body r) (runtimeFormat t)))] ∧
        E' = E ∧ a' = setData a0 (body r) (runtimeFormat t) ∧
        p = Fulfilled (Some (setData a0 (body r) (runtimeFormat t)))
      else if decide (status r = 404) then
        ∃ rest, acts = CallUrlFunction j a0 :: CallGot j u :: rest ∧
                resolves arr t a0 net (S j) E rest E' a' p
      else
        ∃ rest, acts = CallUrlFunction j a0 :: CallGot j u ::
                       PushError (mkFailure u (Responded r)) :: rest ∧
                resolves arr t a0 net (S j)
                  (E ++ [mkFailure u (Responded r)]) rest E' a' p
  | Failed err =>
      ∃ rest, acts = CallUrlFunction j a0 :: CallGot j u ::
                     PushError (mkFailure u (Failed err)) :: rest ∧
              resolves arr t a0 net (S j)
                (E ++ [mkFailure u (Failed err)]) rest E' a' p
  end.
Proof.
  intros Hres Hfm u. subst u.
  destruct Hres as [k Hno|k E Hno HE|k E j0 s0 r Hfm0 Hnet Hst
    |k E j0 s0 r acts E' a' p Hfm0 Hnet Hst Hres
    |k E j0 s0 r acts E' a' p Hfm0 Hnet Hst Hne Hres
    |k E j0 s0 err acts E' a' p Hfm0 Hnet Hres].
  1,2: exfalso; eapply first_match_no_match; eauto.
  all: destruct (first_match_unique _ _ _ _ _ Hfm Hfm0) as [-> ->].
  all: rewrite Hnet.
  - by rewrite decide_True.
  - rewrite decide_False by lia. rewrite decide_True by done. by exists acts.
  - rewrite decide_False by lia. rewrite decide_False by done. by exists acts.
  - by exists acts.
Qed.

Lemma resolves_inv_none k E acts E' a' p :
  resolves arr t a0 net k E acts E' a' p →
  no_match arr (name t) k →
  E' = E ∧ a' = a0 ∧
  (E = [] ∧ acts = [CallFulfill None] ∧ p = Fulfilled None ∨
   E ≠ [] ∧ acts = [CallReject E] ∧ p = Rejected E).
Proof.
  intros Hres Hno. destruct Hres.
  1: by repeat split; try left.
  1: by repeat split; try right.
  all: exfalso; eapply first_match_no_match; eauto.
Qed.

(** A course never begins with a push on [errors]. *)
Lemma resolves_head_not_push k E acts E' a' p e :
  resolves arr t a0 net k E acts E' a' p → head acts ≠ Some (PushError e).
Proof. by destruct 1. Qed.

Lemma resolves_head_match k E acts E' a' p j s :
  resolves arr t a0 net k E acts E' a' p →
  first_match arr (name t) k j s →
  ∃ rest, acts = CallUrlFunction j a0 :: CallGot j (urlFunction s a0) :: rest.
Proof.
  intros Hres Hfm. pose proof (resolves_inv _ _ _ _ _ _ _ _ Hres Hfm) as Hinv.
  simpl in Hinv. destruct (net j (urlFunction s a0)) as [r|err].
  - repeat case_decide; [destruct Hinv as [-> _]; by eexists| |];
      destruct Hinv as (rest & -> & _); by eexists.
  - destruct Hinv as (rest & -> & _); by eexists.
Qed.

(** After a 404 the call goes on to the next source that lists the type,
    or settles if there is none; nothing is pushed on [errors]. *)
Lemma resolves_miss_next k E acts E' a' p i u r :
  resolves arr t a0 net k E acts E' a' p →
  CallGot i u ∈ acts → net i u = Responded r → status r = 404 →
  ∃ L1 L2, acts = L1 ++ CallGot i u :: L2 ∧
    (∀ e, head L2 ≠ Some (PushError e)) ∧
    (∀ j s, first_match arr (name t) (S i) j s →
       ∃ L3, L2 = CallUrlFunction j a0 :: CallGot j (urlFunction s a0) :: L3) ∧
    (no_match arr (name t) (S i) →
       L2 = [CallFulfill None] ∨ ∃ reason, L2 = [CallReject reason]).
Proof.
  intros Hres Hin Hnet Hst.
  induction Hres as [k Hno|k E Hno HE|k E j s r0 Hfm Hnet0 Hst0
    |k E j s r0 acts E' a' p Hfm Hnet0 Hst0 Hres IH
    |k E j s r0 acts E' a' p Hfm Hnet0 Hst0 Hne Hres IH
    |k E j s err acts E' a' p Hfm Hnet0 Hres IH].
  1,2: apply list_elem_of_singleton in Hin; done.
  - rewrite !elem_of_cons in Hin.
    destruct Hin as [?|[Heq|[?|[?|Hnil]]]]; try done; [|inversion Hnil].
    same_answer. lia.
  - rewrite !elem_of_cons in Hin. destruct Hin as [?|[Heq|Hin]]; [done| |].
    + simplify_eq. exists [CallUrlFunction j a0], acts.
      split; [done|]. split; [|split].
      * intros e. by eapply resolves_head_not_push.
      * intros j' s'. by eapply resolves_head_match.
      * intros Hno. destruct (resolves_inv_none _ _ _ _ _ _ Hres Hno)
          as (_ & _ & [(_ & -> & _)|(_ & -> & _)]); [by left|right; by eexists].
    + destruct (IH Hin) as (L1 & L2 & -> & HL2).
      by exists (CallUrlFunction j a0 :: CallGot j (urlFunction s a0) :: L1), L2.
  - rewrite !elem_of_cons in Hin.
    destruct Hin as [?|[Heq|[?|Hin]]]; [done| |done|].
    { simplify_eq. congruence. }
    destruct (IH Hin) as (L1 & L2 & -> & HL2).
    by eexists (_ :: _ :: _ :: L1), L2.
  - rewrite !elem_of_cons in Hin.
    destruct Hin as [?|[Heq|[?|Hin]]]; [done| |done|].
    { simplify_eq. congruence. }
    destruct (IH Hin) as (L1 & L2 & -> & HL2).
    by eexists (_ :: _ :: _ :: L1), L2.
Qed.

(** No entry of [errors] holds a 404 response or a 2xx response. *)
Lemma resolves_errors_not_404 k acts E' a' p e r :
  resolves arr t a0 net k [] acts E' a' p →
  e ∈ E' → result e = Responded r →
  status r ≠ 404 ∧ (status r < 200 ∨ 300 ≤ status r).
Proof.
  intros Hres He Hr. apply resolves_errors in Hres. simpl in Hres. subst E'.
  apply list_elem_of_omap in He as ([i u] & _ & Hf).
  unfold failure_of in Hf. simpl in Hf.
  destruct (is_failure (net i u)) eqn:Hfail; simplify_eq/=.
  rewrite Hr in Hfail. simpl in Hfail.
  apply bool_decide_eq_true in Hfail. lia.
Qed.

(** [setData] is called at most once, and only right before the call
    fulfills with the asset. *)
Lemma resolves_asset k E acts E' a' p :
  resolves arr t a0 net k E acts E' a' p →
  (setData_calls acts ≤ 1)%nat ∧
  match p with
  | Fulfilled (Some a) =>
      ∃ L d, acts = L ++ [CallSetData d (runtimeFormat t);
                          CallFulfill (Some a)] ∧
             setData_calls L = 0%nat ∧
             a = setData a0 d (runtimeFormat t) ∧ a' = a
  | Fulfilled None | Rejected _ => a' = a0 ∧ setData_calls acts = 0%nat
  | Pending => False
  end.
Proof.
  induction 1 as [k Hno|k E Hno HE|k E j s r Hfm Hnet Hst
    |k E j s r acts E' a' p Hfm Hnet Hst Hres IH
    |k E j s r acts E' a' p Hfm Hnet Hst Hne Hres IH
    |k E j s err acts E' a' p Hfm Hnet Hres IH].
  1,2: split; [by compute; lia|done].
  - split; [by compute; lia|]. by eexists [_; _], _.
  - destruct IH as [Hle Hp]. split; [done|].
    destruct p as [|[a|]|reason]; try done.
    destruct Hp as (L & d & -> & HL & -> & ->). by eexists (_ :: _ :: L), d.
  - destruct IH as [Hle Hp]. split; [done|].
    destruct p as [|[a|]|reason]; try done.
    destruct Hp as (L & d & -> & HL & -> & ->).
    by eexists (_ :: _ :: _ :: L), d.
  - destruct IH as [Hle Hp]. split; [done|].
    destruct p as [|[a|]|reason]; try done.
    destruct Hp as (L & d & -> & HL & -> & ->).
    by eexists (_ :: _ :: _ :: L), d.
Qed.

End Course.

Lemma matching_sources_nonempty (arr : list SourceRecord) wanted s :
  s ∈ arr → wanted ∈ types s → matching_sources arr wanted ≠ [].
Proof.
  intros Hs Hw Hnil. apply list_elem_of_lookup_1 in Hs as [i Hi].
  assert (Hin : (i, s) ∈ matching_sources arr wanted).
  { apply list_elem_of_filter. split; [done|].
    apply (list_elem_of_lookup_2 _ i). by rewrite list_lookup_imap, Hi. }
  rewrite Hnil in Hin. inversion Hin.
Qed.

Lemma matching_sources_from (arr : list SourceRecord) wanted :
  matching_sources arr wanted = matching_from arr wanted 0.
Proof. done. Qed.

(** ** The heap: who sees which array *)

Lemma array_get_push_eq l x (h : heap) :
  array_get (array_push l x h) l = array_get h l ++ [x].
Proof. unfold array_push, array_get at 1. by rewrite lookup_insert_eq. Qed.

Lemma array_get_push_ne l l' x (h : heap) :
  l ≠ l' → array_get (array_push l x h) l' = array_get h l'.
Proof.
  intros Hne. unfold array_push, array_get at 1.
  by rewrite lookup_insert_ne.
Qed.

Lemma array_slice_fresh l (h : heap) :
  l ∈ dom h → (array_slice l h).1 ≠ l.
Proof.
  intros Hl Heq. simpl in Heq. pose proof (is_fresh (dom h)) as Hfresh.
  by rewrite Heq in Hfresh.
Qed.

Lemma array_slice_copy l (h : heap) :
  array_get (array_slice l h).2 (array_slice l h).1 = array_get h l.
Proof. simpl. unfold array_get at 1. by rewrite lookup_insert_eq. Qed.

Lemma array_slice_keeps l l' (h : heap) :
  array_get (array_slice l h).2 l' =
  if decide ((array_slice l h).1 = l') then array_get h l else array_get h l'.
Proof.
  simpl. unfold array_get at 1. rewrite lookup_insert.
  by case_decide.
Qed.

(** A call reads the heap only at the array it walks, and keeps walking
    the same array. *)
Lemma tryNextSource_frame (h h' : heap) c :
  array_get h (c_sources c) = array_get h' (c_sources c) →
  tryNextSource h c = tryNextSource h' c.
Proof. intros Heq. unfold tryNextSource. by rewrite Heq. Qed.

Lemma tryNextSource_sources (h : heap) c :
  c_sources (tryNextSource h c) = c_sources c.
Proof.
  unfold tryNextSource. destruct (while_loop _ _ _) as [[f|] k]; simpl;
    [done|by case_decide].
Qed.

Lemma settle_frame (h h' : heap) o c :
  array_get h (c_sources c) = array_get h' (c_sources c) →
  settle h o c = settle h' o c.
Proof.
  intros Heq. unfold settle. destruct (awaiting c) as [u|]; [|done].
  destruct o as [r|err]; unfold on_response, on_error.
  - repeat case_decide; try done; by apply tryNextSource_frame.
  - by apply tryNextSource_frame.
Qed.

Lemma settle_sources (h : heap) o c :
  c_sources (settle h o c) = c_sources c.
Proof.
  unfold settle. destruct (awaiting c) as [u|]; [|done].
  destruct o as [r|err]; unfold on_response, on_error.
  - repeat case_decide; try done; by rewrite tryNextSource_sources.
  - by rewrite tryNextSource_sources.
Qed.

Lemma fold_settle_frame (h h' : heap) os : ∀ c,
  array_get h (c_sources c) = array_get h' (c_sources c) →
  fold_left (λ c o, settle h o c) os c =
  fold_left (λ c o, settle h' o c) os c.
Proof.
  induction os as [|o os IH]; intros c Heq; simpl; [done|].
  rewrite <- (settle_frame h h') by done.
  apply IH. by rewrite settle_sources.
Qed.

(** Registrations do not reach a call whose array is not the helper's:
    the call moves as if only the settlements had happened, in the heap it
    started in. *)
Lemma steps_call ins : ∀ w,
  c_sources (w_call w) ≠ sources (w_helper w) →
  let w' := steps w ins in
  w_helper w' = w_helper w ∧
  c_sources (w_call w') = c_sources (w_call w) ∧
  array_get (w_heap w') (c_sources (w_call w)) =
    array_get (w_heap w) (c_sources (w_call w)) ∧
  w_call w' =
    fold_left (λ c o, settle (w_heap w) o c) (omap settled ins) (w_call w).
Proof.
  induction ins as [|[ts f|o] ins IH]; intros w Hne; simpl; [done| |].
  - destruct (IH (step w (DoAddSource ts f)) Hne) as (Hh & Hl & Harr & Hc).
    simpl in *. unfold addSource in *.
    rewrite array_get_push_ne in Harr by done.
    repeat split; try done.
    rewrite Hc. apply fold_settle_frame.
    by rewrite array_get_push_ne.
  - destruct (IH (step w (DoSettle o))) as (Hh & Hl & Harr & Hc).
    { simpl. by rewrite settle_sources. }
    simpl in *. rewrite settle_sources in Hl, Harr.
    repeat split; done.
Qed.

(** The helper's array grows by exactly the records registered, in the
    order registered. *)
Lemma steps_registry ins : ∀ w,
  let w' := steps w ins in
  w_helper w' = w_helper w ∧
  array_get (w_heap w') (sources (w_helper w)) =
    array_get (w_heap w) (sources (w_helper w)) ++ omap registered ins.
Proof.
  induction ins as [|[ts f|o] ins IH]; intros w; simpl.
  - by rewrite app_nil_r.
  - destruct (IH (step w (DoAddSource ts f))) as [Hh Harr]. simpl in *.
    split; [done|]. rewrite Harr. unfold addSource.
    rewrite array_get_push_eq. by rewrite <- app_assoc.
  - destruct (IH (step w (DoSettle o))) as [Hh Harr]. by simpl in *.
Qed.

(** ** One settlement, under any schedule *)

Lemma settlements_snoc L a :
  settlements (L ++ [a]) =
  (settlements L + if is_settlement a then 1 else 0)%nat.
Proof.
  unfold settlements. rewrite filter_app, length_app. f_equal.
  by destruct a.
Qed.

Lemma tryNextSource_ok (h : heap) c :
  awaiting c = None → promise c = Pending → settlements (log c) = 0%nat →
  call_ok (tryNextSource h c) ∧
  (sourceIndex c ≤ sourceIndex (tryNextSource h c))%nat ∧
  (awaiting (tryNextSource h c) ≠ None →
   (sourceIndex c < sourceIndex (tryNextSource h c))%nat).
Proof.
  destruct c as [t E l a k aw pr L]; simpl. intros -> -> HL.
  unfold tryNextSource, call_ok; simpl.
  pose proof (while_loop_spec (array_get h l) (name t) k) as Hw.
  destruct (while_loop (array_get h l) (name t) k) as [[f|] k'].
  - destruct Hw as (j & s & -> & (Hkj & _) & ->). call_simpl.
    rewrite !settlements_snoc, HL. simpl. repeat split; try done; lia.
  - destruct Hw as [Hk _]. simpl. case_decide; call_simpl.
    all: rewrite settlements_snoc, HL; simpl; repeat split; try done; lia.
Qed.

Lemma settle_ok (h : heap) o c :
  call_ok c →
  call_ok (settle h o c) ∧
  (sourceIndex c ≤ sourceIndex (settle h o c))%nat ∧
  (awaiting c ≠ None → awaiting (settle h o c) ≠ None →
   (sourceIndex c < sourceIndex (settle h o c))%nat).
Proof.
  destruct c as [t E l a k aw pr L]. unfold call_ok, settle; simpl.
  destruct aw as [u|]; [|intros [? ?]; repeat split; try done; lia].
  intros [-> HL].
  assert (Hnext : ∀ c', awaiting c' = None → promise c' = Pending →
            settlements (log c') = 0%nat → sourceIndex c' = k →
            call_ok (tryNextSource h c') ∧
            (k ≤ sourceIndex (tryNextSource h c'))%nat ∧
            (Some u ≠ None → awaiting (tryNextSource h c') ≠ None →
             (k < sourceIndex (tryNextSource h c'))%nat)).
  { intros c' Haw Hp Hs <-.
    destruct (tryNextSource_ok h c' Haw Hp Hs) as (Hok & Hle & Hlt).
    split; [done|]. split; [done|]. intros _. exact Hlt. }
  destruct o as [r|err]; unfold on_response, on_error.
  - destruct (decide (status r < 200 ∨ status r >= 300)) as [Hout|Hin].
    + destruct (decide (status r ≠ 404)) as [Hne|Heq].
      * apply Hnext; try done. call_simpl. by rewrite settlements_snoc, HL.
      * by apply Hnext.
    + call_simpl. rewrite !settlements_snoc, HL. simpl.
      repeat split; try done.
  - apply Hnext; try done. call_simpl. by rewrite settlements_snoc, HL.
Qed.

Lemma load_ok this t id (h : heap) : call_ok (load this t id h).1.
Proof.
  unfold load, array_slice; simpl.
  by apply tryNextSource_ok.
Qed.

Lemma steps_ok ins : ∀ w,
  call_ok (w_call w) →
  call_ok (w_call (steps w ins)) ∧
  (sourceIndex (w_call w) ≤ sourceIndex (w_call (steps w ins)))%nat.
Proof.
  induction ins as [|[ts f|o] ins IH]; intros w Hok; simpl; [done| |].
  - by apply (IH (step w (DoAddSource ts f))).
  - destruct (settle_ok (w_heap w) o (w_call w) Hok) as (Hok' & Hle & _).
    destruct (IH (step w (DoSettle o)) Hok') as [Hok'' Hle'].
    simpl in *. split; [done|lia].
Qed.

Lemma call_ok_settlements c : call_ok c → (settlements (log c) ≤ 1)%nat.
Proof. unfold call_ok. destruct (awaiting c); intros [_ ->]; lia. Qed.

(** ** Network runs are schedules *)

Lemma drive_schedule (net : Network) (h : heap) fuel : ∀ c,
  ∃ os, (length os ≤ fuel)%nat ∧
        drive fuel net h c = fold_left (λ c o, settle h o c) os c.
Proof.
  induction fuel as [|fuel IH]; intros c; simpl.
  - exists []. split; [done|done].
  - destruct (awaiting c) as [u|] eqn:Haw.
    + destruct (IH (settle h (net (pred (sourceIndex c)) u) c))
        as (os & Hlen & Hrun).
      exists (net (pred (sourceIndex c)) u :: os). simpl. split; [lia|done].
    + exists []. split; [simpl; lia|done].
Qed.

Lemma steps_settlements os : ∀ w,
  w_heap (steps w (map DoSettle os)) = w_heap w ∧
  w_call (steps w (map DoSettle os)) =
    fold_left (λ c o, settle (w_heap w) o c) os (w_call w).
Proof.
  induction os as [|o os IH]; intros w; simpl; [done|].
  destruct (IH (step w (DoSettle o))) as [Hh Hc]. by simpl in *.
Qed.

(** A run against a network is the schedule in which the requests settle
    one after the other as the network says and nothing is registered. *)
Lemma run_load_schedule this t id net h :
  ∃ os, (length os ≤ length (array_get h (sources this)))%nat ∧
        run_load this t id net h =
          w_call (steps (start this t id h) (map DoSettle os)).
Proof.
  unfold run_load, start.
  destruct (load this t id h) as [c h'] eqn:Hload.
  assert (Hlen : array_get h' (c_sources c) = array_get h (sources this)).
  { unfold load, array_slice in Hload. simplify_eq.
    rewrite tryNextSource_sources. simpl.
    unfold array_get at 1. by rewrite lookup_insert_eq. }
  destruct (drive_schedule net h' (length (array_get h' (c_sources c))) c)
    as (os & Hos & Hrun).
  exists os. split; [by rewrite <- Hlen|].
  rewrite Hrun. by destruct (steps_settlements os (mkWorld h' this c)) as [_ ->].
Qed.

(** ** The probes of a call, under any schedule *)

Lemma matching_sources_listed (srcs : list SourceRecord) wanted i s :
  (i, s) ∈ matching_sources srcs wanted →
  srcs !! i = Some s ∧ wanted ∈ types s.
Proof.
  unfold matching_sources. rewrite list_elem_of_filter. intros [Hin Hel].
  split; [|done]. apply list_elem_of_lookup_1 in Hel as [n Hn].
  rewrite list_lookup_imap in Hn.
  destruct (srcs !! n) as [s'|] eqn:Hs'; simplify_eq/=. done.
Qed.

Lemma fetches_app L1 L2 : fetches (L1 ++ L2) = fetches L1 ++ fetches L2.
Proof. unfold fetches. apply omap_app. Qed.

Lemma invocations_app L1 L2 :
  invocations (L1 ++ L2) = invocations L1 ++ invocations L2.
Proof. unfold invocations. apply omap_app. Qed.

Lemma no_match_later (arr : list SourceRecord) wanted k k' :
  (k ≤ k')%nat → no_match arr wanted k → no_match arr wanted k'.
Proof. intros Hk Hno i s Hi. apply Hno. lia. Qed.

Lemma tryNextSource_snapshot (h : heap) arr t a0 c :
  c_assetType c = t → array_get h (c_sources c) = arr →
  asset c = a0 → awaiting c = None →
  map (request_of a0) (matching_sources arr (name t)) =
    fetches (log c) ++
    map (request_of a0) (matching_from arr (name t) (sourceIndex c)) →
  invocations (log c) = (fetches (log c)).*1 →
  snapshot_inv h arr t a0 (tryNextSource h c).
Proof.
  destruct c as [t' E l a k aw pr L]; simpl. intros -> Harr -> -> HJ HI.
  unfold tryNextSource, snapshot_inv; simpl. rewrite Harr.
  pose proof (while_loop_spec arr (name t) k) as Hw.
  destruct (while_loop arr (name t) k) as [[f|] k'].
  - destruct Hw as (j & s & -> & Hfm & ->). call_simpl.
    rewrite !fetches_app, !invocations_app, !fmap_app. simpl.
    rewrite !app_nil_r.
    rewrite (matching_from_first _ _ _ _ _ Hfm) in HJ. simpl in HJ.
    repeat split; try done.
    + rewrite HJ. by rewrite <- app_assoc.
    + intros _ Hnil. by apply app_eq_nil in Hnil as [_ ?].
    + by rewrite HI.
  - destruct Hw as [Hk Hno].
    rewrite (matching_from_none _ _ _ Hno) in HJ. simpl in HJ.
    rewrite app_nil_r in HJ.
    assert (Hlater : matching_from arr (name t) k' = []).
    { apply matching_from_none. by eapply no_match_later. }
    simpl. case_decide; call_simpl.
    all: rewrite fetches_app, invocations_app; simpl; rewrite !app_nil_r.
    all: rewrite Hlater; simpl; rewrite app_nil_r.
    all: repeat split; try done.
    all: intros Hne Hnil; rewrite Hnil in HJ; simpl in HJ.
    all: by apply fmap_nil_inv in HJ.
Qed.

Lemma settle_snapshot (h : heap) arr t a0 o c :
  snapshot_inv h arr t a0 c → snapshot_inv h arr t a0 (settle h o c).
Proof.
  intros Hinv. unfold settle.
  destruct (awaiting c) as [u|] eqn:Haw; [|done].
  destruct Hinv as (Ht & Harr & Ha & HJ & HK & HI).
  rewrite Haw in Ha. specialize (Ha ltac:(done)).
  destruct c as [t' E l a k aw pr L]; simpl in *. subst t' a aw.
  assert (Hpush : ∀ e,
    snapshot_inv h arr t a0
      (tryNextSource h
         (errors_push e
            (set_awaiting None (mkLoadCall t E l a0 k (Some u) pr L))))).
  { intros e. apply tryNextSource_snapshot; try done; simpl.
    - rewrite fetches_app. simpl. by rewrite app_nil_r.
    - rewrite fetches_app, invocations_app. simpl. by rewrite !app_nil_r. }
  destruct o as [r|err]; unfold on_response, on_error.
  - destruct (decide (status r < 200 ∨ status r >= 300)) as [Hout|Hin].
    + destruct (decide (status r ≠ 404)) as [Hne|Heq]; [apply Hpush|].
      by apply tryNextSource_snapshot.
    + unfold snapshot_inv. call_simpl.
      rewrite !fetches_app, !invocations_app. simpl. rewrite !app_nil_r.
      repeat split; done.
  - apply Hpush.
Qed.

Lemma fold_settle_snapshot (h : heap) arr t a0 os : ∀ c,
  snapshot_inv h arr t a0 c →
  snapshot_inv h arr t a0 (fold_left (λ c o, settle h o c) os c).
Proof.
  induction os as [|o os IH]; intros c Hinv; simpl; [done|].
  apply IH. by apply settle_snapshot.
Qed.

Lemma load_snapshot this t id (h : heap) :
  snapshot_inv (load this t id h).2 (array_get h (sources this)) t
    (new_Asset t id) (load this t id h).1.
Proof.
  unfold load, array_slice; simpl.
  apply tryNextSource_snapshot; try done; simpl.
  unfold array_get at 1. by rewrite lookup_insert_eq.
Qed.

(** What the invariant says about the requests made so far. *)
Lemma snapshot_inv_requests (h : heap) arr t a0 c :
  snapshot_inv h arr t a0 c →
  fetches (log c) `prefix_of`
    map (request_of a0) (matching_sources arr (name t)) ∧
  head (fetches (log c)) =
    head (map (request_of a0) (matching_sources arr (name t))) ∧
  invocations (log c) = (fetches (log c)).*1 ∧
  ∀ j u, CallGot j u ∈ log c →
    ∃ s, arr !! j = Some s ∧ name t ∈ types s ∧ u = urlFunction s a0.
Proof.
  intros (_ & _ & _ & HJ & HK & HI).
  split; [by eexists|]. split; [|split; [done|]].
  - rewrite HJ. destruct (fetches (log c)) as [|x l] eqn:Hf; [|done].
    simpl in HJ. destruct (matching_sources arr (name t)) as [|p cs]; [|].
    + simpl in HJ. by rewrite <- HJ.
    + by destruct HK.
  - intros j u Hin. apply elem_of_fetches in Hin.
    assert (Hreq : (j, u) ∈ map (request_of a0)
                     (matching_sources arr (name t))).
    { rewrite HJ. apply elem_of_app. by left. }
    apply list_elem_of_fmap in Hreq as ([j' s] & Heq & Hcand).
    unfold request_of in Heq. simpl in Heq. simplify_eq.
    apply matching_sources_listed in Hcand as [Hs Hl]. by exists s.
Qed.

(** ** The claims *)

(** C1: when the request to a source settles with a status in [200, 300),
    the call fulfills with the asset holding that response's body and
    [assetType.runtimeFormat]; after that request the call only calls
    [setData] and [fulfill], and no source of a higher index is invoked or
    asked. *)
Theorem load_first_success_wins this t id net h i u r :
  let c := run_load this t id net h in
  let a := setData (new_Asset t id) (body r) (runtimeFormat t) in
  CallGot i u ∈ log c → net i u = Responded r → 200 ≤ status r < 300 →
  promise c = Fulfilled (Some a) ∧ asset c = a ∧
  data a = Some (body r) ∧ dataFormat a = Some (runtimeFormat t) ∧
  (∃ L, log c = L ++ [CallGot i u; CallSetData (body r) (runtimeFormat t);
                      CallFulfill (Some a)]) ∧
  Forall (λ j, (j ≤ i)%nat) (invocations (log c)) ∧
  Forall (λ iu, (iu.1 ≤ i)%nat) (fetches (log c)).
Proof.
  intros c a Hin Hnet Hst.
  destruct (run_load_resolves this t id net h)
    as (acts & E' & a' & p & k' & Hres & Hrun).
  subst c. rewrite Hrun in *. simpl in *.
  destruct (resolves_success _ _ _ _ _ _ _ _ _ _ _ _ _ Hres Hin Hnet Hst)
    as (-> & -> & HL & Hall).
  repeat split; try done.
  rewrite (resolves_invocations _ _ _ _ _ _ _ _ _ _ Hres).
  by apply Forall_fmap.
Qed.

(** C2: a request that settles with status 404 leaves no entry in
    [errors] (no entry ever holds a 404 response, and the action after the
    request is not a push); the call goes on to the next source listing the
    type, or settles if there is none.  In particular, when the first such
    source answers 404 and the second answers 2xx, the call fulfills with
    the asset filled from the second and [errors] is empty. *)
Theorem load_skips_404 this t id net h i u r :
  let arr := array_get h (sources this) in
  let a0 := new_Asset t id in
  let c := run_load this t id net h in
  CallGot i u ∈ log c → net i u = Responded r → status r = 404 →
  (∀ e r', e ∈ errors c → result e = Responded r' → status r' ≠ 404) ∧
  (∃ L1 L2, log c = L1 ++ CallGot i u :: L2 ∧
     (∀ e, head L2 ≠ Some (PushError e)) ∧
     (∀ j s, first_match arr (name t) (S i) j s →
        ∃ L3, L2 = CallUrlFunction j a0 ::
                   CallGot j (urlFunction s a0) :: L3) ∧
     (no_match arr (name t) (S i) →
        L2 = [CallFulfill None] ∨ ∃ reason, L2 = [CallReject reason])) ∧
  (∀ s j s' r',
     first_match arr (name t) 0 i s →
     first_match arr (name t) (S i) j s' →
     net j (urlFunction s' a0) = Responded r' → 200 ≤ status r' < 300 →
     let a := setData a0 (body r') (runtimeFormat t) in
     promise c = Fulfilled (Some a) ∧ asset c = a ∧ errors c = [] ∧
     log c = [CallUrlFunction i a0; CallGot i u;
              CallUrlFunction j a0; CallGot j (urlFunction s' a0);
              CallSetData (body r') (runtimeFormat t);
              CallFulfill (Some a)]).
Proof.
  intros arr a0 c Hin Hnet Hst.
  destruct (run_load_resolves this t id net h)
    as (acts & E' & a' & p & k' & Hres & Hrun).
  subst c. rewrite Hrun in *. simpl in *. fold arr a0 in Hres.
  split; [|split].
  - intros e r' He Hr'.
    by destruct (resolves_errors_not_404 _ _ _ _ _ _ _ _ _ _ _ Hres He Hr').
  - by eapply resolves_miss_next.
  - intros s j s' r' Hfm Hfm' Hnet' Hst'.
    assert (u = urlFunction s a0) as ->.
    { pose proof (resolves_fetches _ _ _ _ _ _ _ _ _ _ Hres) as Hf.
      rewrite Forall_forall in Hf. apply elem_of_fetches in Hin.
      destruct (Hf _ Hin) as (_ & s0 & Hs0 & _ & Hu). simpl in *.
      destruct Hfm as (_ & Hs & _). congruence. }
    pose proof (resolves_inv _ _ _ _ _ _ _ _ _ _ _ _ Hres Hfm) as Hinv.
    simpl in Hinv. rewrite Hnet in Hinv.
    rewrite decide_False in Hinv by lia. rewrite decide_True in Hinv by done.
    destruct Hinv as (rest & -> & Hres').
    pose proof (resolves_inv _ _ _ _ _ _ _ _ _ _ _ _ Hres' Hfm') as Hinv.
    simpl in Hinv. rewrite Hnet' in Hinv.
    rewrite decide_True in Hinv by done.
    by destruct Hinv as (-> & -> & -> & ->).
Qed.

(** C3: when at least one source lists the type and every such source's
    request settles as a failure (a transport error, or a status outside
    [200, 300) other than 404), the call rejects with [errors], which holds
    one entry per listing source, in array order, each with the url that
    source's [urlFunction] computed and the way its request settled.  With
    every answer a 500 this is one entry per listing source. *)
Theorem load_all_fail_rejects this t id net h :
  let arr := array_get h (sources this) in
  let a0 := new_Asset t id in
  let c := run_load this t id net h in
  let candidates := matching_sources arr (name t) in
  let errs := map (entry_of net a0) candidates in
  (∃ s, s ∈ arr ∧ name t ∈ types s) →
  (∀ i s, arr !! i = Some s → name t ∈ types s →
          is_failure (net i (urlFunction s a0)) = true) →
  promise c = Rejected errs ∧ errors c = errs ∧
  (∃ L, log c = L ++ [CallReject errs]) ∧
  fetches (log c) = map (request_of a0) candidates ∧
  length errs = length candidates ∧
  map url errs = map (λ p, urlFunction p.2 a0) candidates.
Proof.
  intros arr a0 c candidates errs [s [Hs Hin]] Hfail.
  destruct (run_load_resolves this t id net h)
    as (acts & E' & a' & p & k' & Hres & Hrun).
  subst c. rewrite Hrun. simpl. fold arr a0 in Hres.
  destruct (resolves_all_fail _ _ _ _ _ _ _ _ _ _ Hres)
    as (HE & _ & Hf & Hrej).
  { intros i s' _. apply Hfail. }
  simpl in HE. rewrite <- matching_sources_from in HE, Hf.
  fold candidates in HE, Hf. fold errs in HE. subst E'.
  assert (Hne : errs ≠ []).
  { unfold errs. intros Hnil. apply fmap_nil_inv in Hnil.
    by eapply matching_sources_nonempty. }
  destruct (Hrej Hne) as [-> HL].
  repeat split; try done.
  - unfold errs. by rewrite length_map.
  - unfold errs. rewrite <- list_fmap_compose. done.
Qed.

(** C4: when at least one source lists the type and every such source
    answers 404, the call fulfills with [null]: each of those sources is
    asked, nothing is pushed on [errors], [reject] is never called and the
    asset stays empty. *)
Theorem load_all_404_null this t id net h :
  let arr := array_get h (sources this) in
  let a0 := new_Asset t id in
  let c := run_load this t id net h in
  (∃ s, s ∈ arr ∧ name t ∈ types s) →
  (∀ i s, arr !! i = Some s → name t ∈ types s →
          ∃ r, net i (urlFunction s a0) = Responded r ∧ status r = 404) →
  promise c = Fulfilled None ∧ errors c = [] ∧ asset c = a0 ∧
  (∃ L, log c = L ++ [CallFulfill None]) ∧
  (∀ reason, CallReject reason ∉ log c) ∧
  (∀ e, PushError e ∉ log c) ∧
  fetches (log c) = map (request_of a0) (matching_sources arr (name t)) ∧
  fetches (log c) ≠ [].
Proof.
  intros arr a0 c [s [Hs Hin]] Hmiss.
  destruct (run_load_resolves this t id net h)
    as (acts & E' & a' & p & k' & Hres & Hrun).
  subst c. rewrite Hrun. simpl. fold arr a0 in Hres.
  destruct (resolves_all_404 _ _ _ _ _ _ _ _ _ _ Hres eq_refl)
    as (-> & -> & -> & Hf & HL & Hall).
  { intros i s' _. apply Hmiss. }
  rewrite <- matching_sources_from in Hf. rewrite Forall_forall in Hall.
  repeat split; try done.
  - intros reason Hr. destruct (Hall _ Hr) as [_ Hnr]. by apply (Hnr reason).
  - intros e He. by destruct (Hall _ He) as [Hp _].
  - rewrite Hf. intros Hnil. apply fmap_nil_inv in Hnil.
    by eapply matching_sources_nonempty.
Qed.

(** C5: when no registered source lists [assetType.name], [load] fulfills
    with [null] and does nothing else: its one action is that call of
    [fulfill], so no [urlFunction] is invoked and no request is issued. *)
Theorem load_no_matching_source this t id net h :
  (∀ s, s ∈ array_get h (sources this) → name t ∉ types s) →
  let c := run_load this t id net h in
  promise c = Fulfilled None ∧ log c = [CallFulfill None] ∧
  fetches (log c) = [] ∧ invocations (log c) = [] ∧ awaiting c = None.
Proof.
  intros Hall c.
  destruct (run_load_resolves this t id net h)
    as (acts & E' & a' & p & k' & Hres & Hrun).
  subst c. rewrite Hrun. simpl.
  pose proof (no_match_forall _ _ Hall 0%nat) as Hno.
  inversion Hres; subst; try done.
  all: exfalso; eapply first_match_no_match; eauto.
Qed.

(** C6: a source that does not list [assetType.name] is never probed,
    whatever the outcome: its [urlFunction] is not invoked and no request is
    issued for it.  The sources that are probed are probed in non-decreasing
    index order, each invocation followed by that source's request. *)
Theorem load_probes_only_matching this t id net h i s :
  let arr := array_get h (sources this) in
  let c := run_load this t id net h in
  arr !! i = Some s → name t ∉ types s →
  (∀ a, CallUrlFunction i a ∉ log c) ∧ (∀ u, CallGot i u ∉ log c) ∧
  (i ∉ invocations (log c)) ∧
  invocations (log c) = (fetches (log c)).*1 ∧
  StronglySorted le (fetches (log c)).*1.
Proof.
  intros arr c Hs Hnot.
  destruct (run_load_resolves this t id net h)
    as (acts & E' & a' & p & k' & Hres & Hrun).
  subst c. rewrite Hrun. simpl. fold arr in Hres.
  pose proof (resolves_fetches _ _ _ _ _ _ _ _ _ _ Hres) as Hf.
  pose proof (resolves_invocations _ _ _ _ _ _ _ _ _ _ Hres) as Hinv.
  pose proof (resolves_sorted _ _ _ _ _ _ _ _ _ _ Hres) as Hsort.
  rewrite Forall_forall in Hf.
  assert (Hgot : ∀ u, CallGot i u ∉ acts).
  { intros u Hin. apply elem_of_fetches in Hin.
    destruct (Hf _ Hin) as (_ & s0 & Hs0 & Hin0 & _). simpl in *.
    congruence. }
  assert (Hni : i ∉ invocations acts).
  { rewrite Hinv. intros Hin. apply list_elem_of_fmap in Hin as ([i' u] & -> & Hin).
    apply elem_of_fetches in Hin. by apply (Hgot u). }
  repeat split; try done.
  - intros a Hin. apply Hni. unfold invocations. apply list_elem_of_omap.
    by exists (CallUrlFunction i a).
  - by apply StronglySorted_lt_le.
Qed.

(** C7: every call settles exactly once: its log holds one call of
    [fulfill] or [reject], the promise is settled and no request is left
    outstanding.  It issues at most as many requests as the copied array has
    entries; the indices asked are strictly increasing, within the array,
    and none is asked twice.  Under any schedule of settlements and
    registrations the call is waiting with nothing settled or settled by
    one call, and its cursor never moves back. *)
Theorem load_settles_once this t id net h :
  let arr := array_get h (sources this) in
  let c := run_load this t id net h in
  settlements (log c) = 1%nat ∧ promise c ≠ Pending ∧ awaiting c = None ∧
  (length (fetches (log c)) ≤ length arr)%nat ∧
  StronglySorted lt (fetches (log c)).*1 ∧
  Forall (λ i, (i < length arr)%nat) (fetches (log c)).*1 ∧
  NoDup (fetches (log c)).*1 ∧
  (∀ ins, let w := steps (start this t id h) ins in
     call_ok (w_call w) ∧ (settlements (log (w_call w)) ≤ 1)%nat ∧
     (sourceIndex (load this t id h).1 ≤ sourceIndex (w_call w))%nat).
Proof.
  intros arr c.
  destruct (run_load_resolves this t id net h)
    as (acts & E' & a' & p & k' & Hres & Hrun).
  subst c. rewrite Hrun. simpl. fold arr in Hres.
  pose proof (resolves_fetches _ _ _ _ _ _ _ _ _ _ Hres) as Hf.
  pose proof (resolves_sorted _ _ _ _ _ _ _ _ _ _ Hres) as Hsort.
  destruct (resolves_settles _ _ _ _ _ _ _ _ _ _ Hres) as [Hone [L HL]].
  assert (Hb : Forall (λ i, (0 ≤ i < length arr)%nat) (fetches acts).*1).
  { apply Forall_fmap. eapply Forall_impl; [exact Hf|].
    intros [i u] (_ & s & Hs%lookup_lt_Some & _). simpl in *. lia. }
  repeat split; try done.
  - destruct HL as [[_ ->]|[[a [_ ->]]|[_ ->]]]; done.
  - pose proof (increasing_length _ _ Hsort 0%nat Hb) as Hlen.
    rewrite length_fmap in Hlen. lia.
  - eapply Forall_impl; [exact Hb|]. intros j Hj. simpl in Hj. lia.
  - by apply StronglySorted_lt_NoDup.
  - apply steps_ok. apply load_ok.
  - apply call_ok_settlements, steps_ok, load_ok.
  - apply (steps_ok ins (start this t id h)), load_ok.
Qed.

(** C8: [setData] is called at most once.  A call that fulfills with the
    asset called it exactly once, right before [fulfill], and hands back the
    asset with both the data and the format set; a call that fulfills with
    [null] or rejects never called it and its asset is as constructed. *)
Theorem load_populates_once this t id net h :
  let c := run_load this t id net h in
  (setData_calls (log c) ≤ 1)%nat ∧
  match promise c with
  | Fulfilled (Some a) =>
      ∃ L d, log c = L ++ [CallSetData d (runtimeFormat t);
                           CallFulfill (Some a)] ∧
             setData_calls L = 0%nat ∧
             a = setData (new_Asset t id) d (runtimeFormat t) ∧
             asset c = a ∧ data a = Some d ∧
             dataFormat a = Some (runtimeFormat t)
  | Fulfilled None | Rejected _ =>
      asset c = new_Asset t id ∧ setData_calls (log c) = 0%nat ∧
      data (asset c) = None ∧ dataFormat (asset c) = None
  | Pending => False
  end.
Proof.
  intros c.
  destruct (run_load_resolves this t id net h)
    as (acts & E' & a' & p & k' & Hres & Hrun).
  subst c. rewrite Hrun. simpl.
  destruct (resolves_asset _ _ _ _ _ _ _ _ _ _ Hres) as [Hle Hp].
  split; [done|].
  destruct p as [|[a|]|reason]; try done.
  - destruct Hp as (L & d & -> & HL & -> & ->). by exists L, d.
  - by destruct Hp as [-> ->].
  - by destruct Hp as [-> ->].
Qed.

(** C9: a call works on the copy of the source array made when [load] was
    invoked.  The copy is a different array from the helper's, it holds
    the entries the helper had at that moment, in that order, and keeps
    holding them whatever is registered later; the call's state, its log of
    probes included, is the one it reaches from the settlements alone.
    Under any schedule of settlements and registrations the requests made
    so far are an initial part of the requests of the sources that listed
    the type when [load] was invoked, in that order, beginning with the
    first of them; every request in the log is for such a source and for
    the url its [urlFunction] gives, and follows that source's
    invocation. *)
Theorem load_uses_snapshot this t id h ins :
  sources this ∈ dom h →
  let arr := array_get h (sources this) in
  let c0 := (load this t id h).1 in
  let h0 := (load this t id h).2 in
  let w := steps (start this t id h) ins in
  c_sources (w_call w) ≠ sources this ∧
  array_get h0 (c_sources c0) = arr ∧
  array_get (w_heap w) (c_sources (w_call w)) = arr ∧
  w_call w = fold_left (λ c o, settle h0 o c) (omap settled ins) c0 ∧
  fetches (log (w_call w)) `prefix_of`
    map (request_of (new_Asset t id)) (matching_sources arr (name t)) ∧
  head (fetches (log (w_call w))) =
    head (map (request_of (new_Asset t id))
            (matching_sources arr (name t))) ∧
  invocations (log (w_call w)) = (fetches (log (w_call w))).*1 ∧
  (∀ j u, CallGot j u ∈ log (w_call w) →
     ∃ s, arr !! j = Some s ∧ name t ∈ types s ∧
          u = urlFunction s (new_Asset t id)).
Proof.
  intros Hdom arr c0 h0 w.
  assert (Hl : c_sources c0 = (array_slice (sources this) h).1).
  { unfold c0, load, array_slice; simpl. by rewrite tryNextSource_sources. }
  assert (Hne : c_sources c0 ≠ sources this).
  { rewrite Hl. by apply array_slice_fresh. }
  assert (Hcopy : array_get h0 (c_sources c0) = arr).
  { rewrite Hl. apply array_slice_copy. }
  destruct (steps_call ins (start this t id h)) as (Hh & Hs & Harr & Hc).
  { exact Hne. }
  fold w in Hh, Hs, Harr, Hc.
  change (w_call (start this t id h)) with c0 in *.
  change (w_heap (start this t id h)) with h0 in *.
  assert (Hinv : snapshot_inv h0 arr t (new_Asset t id) (w_call w)).
  { rewrite Hc. apply fold_settle_snapshot. apply load_snapshot. }
  destruct (snapshot_inv_requests _ _ _ _ _ Hinv) as (Hpre & Hhead & Hi & Hg).
  rewrite Hs. repeat split; try done. by rewrite Harr.
Qed.

(** C10: [load] never changes the helper's source array, whatever the
    outcome: the array is the same right after [load] and after any
    settlements.  Only [addSource] changes it, by appending one record and
    leaving every other array as it was; over any schedule the array is the
    old one followed by the records registered, in order. *)
Theorem load_leaves_registry this t id h ins :
  let w := steps (start this t id h) ins in
  array_get (load this t id h).2 (sources this) = array_get h (sources this) ∧
  w_helper w = this ∧
  array_get (w_heap w) (sources this) =
    array_get h (sources this) ++ omap registered ins ∧
  (∀ os, array_get (w_heap (steps (start this t id h) (map DoSettle os)))
           (sources this) = array_get h (sources this)) ∧
  (∀ ts f (h1 : heap),
     array_get (addSource this ts f h1) (sources this) =
       array_get h1 (sources this) ++
       [{| types := map name ts; urlFunction := f |}] ∧
     delete (sources this) (addSource this ts f h1) =
       delete (sources this) h1).
Proof.
  intros w.
  assert (Hload : array_get (load this t id h).2 (sources this) =
                  array_get h (sources this)).
  { change (load this t id h).2 with (array_slice (sources this) h).2.
    rewrite array_slice_keeps. by case_decide. }
  assert (Hsteps : ∀ ins',
    w_helper (steps (start this t id h) ins') = this ∧
    array_get (w_heap (steps (start this t id h) ins')) (sources this) =
      array_get h (sources this) ++ omap registered ins').
  { intros ins'.
    destruct (steps_registry ins' (start this t id h)) as [Hh Harr].
    change (w_helper (start this t id h)) with this in *.
    change (w_heap (start this t id h)) with (load this t id h).2 in *.
    by rewrite Hload in Harr. }
  destruct (Hsteps ins) as [Hh Harr]. fold w in Hh, Harr.
  split; [done|]. split; [done|]. split; [done|]. split.
  - intros os. destruct (Hsteps (map DoSettle os)) as [_ ->].
    replace (omap registered (map DoSettle os)) with (@nil SourceRecord).
    + by rewrite app_nil_r.
    + induction os as [|o os IH]; [done|]. simpl. exact IH.
  - intros ts f h1. split.
    + apply array_get_push_eq.
    + unfold addSource, array_push. by rewrite delete_insert_eq.
Qed.

(** ** The claims on the sample helper *)

Import Sample.

Lemma registry_entries : array_get registry (sources helper) = entries.
Proof. reflexivity. Qed.

Lemma helper_registered : sources helper ∈ dom registry.
Proof. compute_done. Qed.

Lemma entries_Project_first :
  first_match entries "Project" 0 1
    {| types := ["Project"]; urlFunction := projectHost |}.
Proof.
  split; [lia|]. split; [done|]. split; [compute_done|].
  intros i s' Hi Hs'. assert (i = 0%nat) as -> by lia.
  simpl in Hs'. simplify_eq. compute_done.
Qed.

Lemma entries_Project_second :
  first_match entries "Project" 2 2
    {| types := ["Project"; "Sound"]; urlFunction := mirror |}.
Proof.
  split; [lia|]. split; [done|]. split; [compute_done|].
  intros i s' Hi Hs'. lia.
Qed.

Lemma entries_Project_listed :
  ∃ s, s ∈ array_get registry (sources helper) ∧ name Project ∈ types s.
Proof.
  rewrite registry_entries.
  exists {| types := ["Project"]; urlFunction := projectHost |}.
  split; [|compute_done]. unfold entries. by repeat constructor.
Qed.

Lemma load_first_success_wins_witness :
  let c := run_load helper Project "1" net_ok registry in
  CallGot 1 "https://projects.example/1" ∈ log c ∧
  promise c = Fulfilled (Some (setData (new_Asset Project "1") payload "JSON")).
Proof.
  intros c.
  assert (Hin : CallGot 1 "https://projects.example/1" ∈ log c)
    by (vm_compute; repeat constructor).
  split; [exact Hin|].
  by destruct (load_first_success_wins helper Project "1" net_ok registry
                 1%nat "https://projects.example/1"
                 {| status := 200; body := payload |}
                 Hin eq_refl ltac:(simpl; lia)) as [Hp _].
Defined.

Lemma load_skips_404_witness :
  let c := run_load helper Project "1" net_miss_then_ok registry in
  CallGot 1 "https://projects.example/1" ∈ log c ∧
  promise c =
    Fulfilled (Some (setData (new_Asset Project "1") payload "JSON")) ∧
  errors c = [].
Proof.
  intros c.
  assert (Hin : CallGot 1 "https://projects.example/1" ∈ log c)
    by (vm_compute; repeat constructor).
  split; [exact Hin|].
  destruct (load_skips_404 helper Project "1" net_miss_then_ok registry
              1%nat "https://projects.example/1"
              {| status := 404; body := [] |} Hin eq_refl eq_refl)
    as (_ & _ & Hcase).
  destruct (Hcase _ 2%nat _ {| status := 200; body := payload |}
              entries_Project_first entries_Project_second
              eq_refl ltac:(simpl; lia)) as (Hp & _ & He & _).
  split; [exact Hp|exact He].
Defined.

Lemma load_all_fail_rejects_witness :
  let c := run_load helper Project "1" net_down registry in
  promise c =
    Rejected [ {| url := "https://projects.example/1";
                  result := answer 500 [] |};
               {| url := "https://mirror.example/1";
                  result := answer 500 [] |} ] ∧
  length (errors c) = 2%nat.
Proof.
  intros c.
  destruct (load_all_fail_rejects helper Project "1" net_down registry
              entries_Project_listed) as (Hp & He & _).
  { intros i s _ _. reflexivity. }
  split; [exact Hp|]. fold c in He. by rewrite He.
Defined.

Lemma load_all_404_null_witness :
  let c := run_load helper Project "1" net_missing registry in
  promise c = Fulfilled None ∧ errors c = [] ∧
  fetches (log c) = [(1%nat, "https://projects.example/1");
                     (2%nat, "https://mirror.example/1")].
Proof.
  intros c.
  destruct (load_all_404_null helper Project "1" net_missing registry
              entries_Project_listed) as (Hp & He & _ & _ & _ & _ & Hf & _).
  { intros i s _ _. by exists {| status := 404; body := [] |}. }
  split; [exact Hp|]. split; [exact He|exact Hf].
Defined.

Lemma load_no_matching_source_witness :
  let c := run_load helper ImageBitmap "1" net_ok registry in
  promise c = Fulfilled None ∧ fetches (log c) = [].
Proof.
  intros c.
  destruct (load_no_matching_source helper ImageBitmap "1" net_ok registry)
    as (Hp & _ & Hf & _).
  { intros s Hs. rewrite registry_entries in Hs. unfold entries in Hs.
    rewrite !elem_of_cons in Hs.
    destruct Hs as [->|[->|[->|Hs]]]; [compute_done..|inversion Hs]. }
  split; [exact Hp|exact Hf].
Defined.

Lemma load_probes_only_matching_witness :
  let c := run_load helper Project "1" net_down registry in
  (∀ u, CallGot 0 u ∉ log c) ∧ 0%nat ∉ invocations (log c).
Proof.
  intros c.
  destruct (load_probes_only_matching helper Project "1" net_down registry
              0%nat {| types := ["Sound"]; urlFunction := assetHost |}
              eq_refl ltac:(compute_done)) as (_ & Hg & Hi & _).
  split; [exact Hg|exact Hi].
Defined.

Lemma load_uses_snapshot_witness :
  let ins := [DoSettle (answer 404 []);
              DoAddSource [Project] assetHost;
              DoSettle (answer 500 [])] in
  let w := steps (start helper Project "1" registry) ins in
  sources helper ∈ dom registry ∧
  c_sources (w_call w) ≠ sources helper ∧
  array_get (w_heap w) (c_sources (w_call w)) = entries ∧
  head (fetches (log (w_call w))) =
    Some (1%nat, "https://projects.example/1") ∧
  fetches (log (w_call w)) `prefix_of`
    [(1%nat, "https://projects.example/1");
     (2%nat, "https://mirror.example/1")].
Proof.
  intros ins w.
  destruct (load_uses_snapshot helper Project "1" registry ins
              helper_registered) as (Hne & _ & Harr & _ & Hpre & Hhead & _).
  split; [exact helper_registered|]. split; [exact Hne|].
  split; [exact Harr|]. split; [exact Hhead|exact Hpre].
Defined.

(** ** Further properties of [load], [addSource] and the constructor *)

Section Further.
Variable arr : list SourceRecord.
Variable t : AssetType.
Variable a0 : Asset.
Variable net : Network.

Lemma resolves_asked k E acts E' a' p :
  resolves arr t a0 net k E acts E' a' p →
  fetches acts = asked net a0 (matching_from arr (name t) k).
Proof.
  induction 1 as [k Hno|k E Hno HE|k E j s r Hfm Hnet Hst
    |k E j s r acts E' a' p Hfm Hnet Hst Hres IH
    |k E j s r acts E' a' p Hfm Hnet Hst Hne Hres IH
    |k E j s err acts E' a' p Hfm Hnet Hres IH].
  1,2: by rewrite (matching_from_none _ _ _ Hno).
  all: rewrite (matching_from_first _ _ _ _ _ Hfm); simpl; rewrite Hnet; simpl.
  - by rewrite bool_decide_eq_true_2.
  - rewrite bool_decide_eq_false_2 by lia. by rewrite IH.
  - rewrite bool_decide_eq_false_2 by lia. by rewrite IH.
  - by rewrite IH.
Qed.

Lemma resolves_pushed k E acts E' a' p :
  resolves arr t a0 net k E acts E' a' p → E' = E ++ pushed acts.
Proof.
  induction 1 as [k Hno|k E Hno HE|k E j s r Hfm Hnet Hst
    |k E j s r acts E' a' p Hfm Hnet Hst Hres IH
    |k E j s r acts E' a' p Hfm Hnet Hst Hne Hres IH
    |k E j s err acts E' a' p Hfm Hnet Hres IH]; simpl.
  1,2,3: by rewrite ?app_nil_r.
  - done.
  - rewrite IH. by rewrite <- app_assoc.
  - rewrite IH. by rewrite <- app_assoc.
Qed.

Lemma resolves_deterministic k E acts1 E1 a1 p1 :
  resolves arr t a0 net k E acts1 E1 a1 p1 →
  ∀ acts2 E2 a2 p2, resolves arr t a0 net k E acts2 E2 a2 p2 →
  acts1 = acts2 ∧ E1 = E2 ∧ a1 = a2 ∧ p1 = p2.
Proof.
  induction 1 as [k Hno|k E Hno HE|k E j s r Hfm Hnet Hst
    |k E j s r acts E' a' p Hfm Hnet Hst Hres IH
    |k E j s r acts E' a' p Hfm Hnet Hst Hne Hres IH
    |k E j s err acts E' a' p Hfm Hnet Hres IH];
    intros acts2 E2 a2 p2 H2.
  1,2: destruct (resolves_inv_none _ _ _ _ _ _ _ _ _ _ H2 Hno)
         as (-> & -> & [(? & -> & ->)|(? & -> & ->)]); done.
  all: pose proof (resolves_inv _ _ _ _ _ _ _ _ _ _ _ _ H2 Hfm) as Hinv.
  all: simpl in Hinv; rewrite Hnet in Hinv.
  - rewrite decide_True in Hinv by done. by destruct Hinv as (-> & -> & -> & ->).
  - rewrite decide_False in Hinv by lia. rewrite decide_True in Hinv by done.
    destruct Hinv as (rest & -> & Hrest).
    by destruct (IH _ _ _ _ Hrest) as (-> & -> & -> & ->).
  - rewrite decide_False in Hinv by lia. rewrite decide_False in Hinv by done.
    destruct Hinv as (rest & -> & Hrest).
    by destruct (IH _ _ _ _ Hrest) as (-> & -> & -> & ->).
  - destruct Hinv as (rest & -> & Hrest).
    by destruct (IH _ _ _ _ Hrest) as (-> & -> & -> & ->).
Qed.

(** How a course ends tells what the network did. *)
Lemma resolves_outcome k E acts E' a' p :
  resolves arr t a0 net k E acts E' a' p →
  match p with
  | Fulfilled (Some a) =>
      (∃ i u r, last (fetches acts) = Some (i, u) ∧
                net i u = Responded r ∧ 200 ≤ status r < 300 ∧
                a = setData a0 (body r) (runtimeFormat t)) ∧
      ∀ reason, CallReject reason ∉ acts
  | Fulfilled None =>
      E = [] ∧ E' = [] ∧
      Forall (λ iu, ∃ r, net iu.1 iu.2 = Responded r ∧ status r = 404)
        (fetches acts) ∧
      fetches acts = map (request_of a0) (matching_from arr (name t) k)
  | Rejected reason =>
      reason = E' ∧ E' ≠ [] ∧
      Forall (λ iu, is_success (net iu.1 iu.2) = false) (fetches acts) ∧
      fetches acts = map (request_of a0) (matching_from arr (name t) k) ∧
      ∀ value, CallFulfill value ∉ acts
  | Pending => False
  end.
Proof.
  induction 1 as [k Hno|k E Hno HE|k E j s r Hfm Hnet Hst
    |k E j s r acts E' a' p Hfm Hnet Hst Hres IH
    |k E j s r acts E' a' p Hfm Hnet Hst Hne Hres IH
    |k E j s err acts E' a' p Hfm Hnet Hres IH].
  - rewrite (matching_from_none _ _ _ Hno). by repeat split.
  - rewrite (matching_from_none _ _ _ Hno). repeat split; try done.
    intros value Hin. apply list_elem_of_singleton in Hin. done.
  - split; [by exists j, (urlFunction s a0), r|].
    intros reason Hin. rewrite !elem_of_cons in Hin.
    destruct Hin as [?|[?|[?|[?|Hnil]]]]; try done. inversion Hnil.
  - destruct p as [|[a|]|reason]; [done| | |].
    + destruct IH as [(i & u & r' & Hlast & Hrest) Hnr]. split.
      * exists i, u, r'. split; [|done]. simpl.
        destruct (fetches acts); [done|done].
      * intros reason Hin. rewrite !elem_of_cons in Hin.
        destruct Hin as [?|[?|Hin]]; try done. by apply (Hnr reason).
    + destruct IH as (-> & -> & Hall & Hf).
      rewrite (matching_from_first _ _ _ _ _ Hfm). simpl.
      repeat split; try done; try (by rewrite Hf). constructor; [by exists r|done].
    + destruct IH as (-> & Hne & Hall & Hf & Hnf).
      rewrite (matching_from_first _ _ _ _ _ Hfm). simpl.
      repeat split; try done; try (by rewrite Hf).
      * constructor; [|done]. simpl. rewrite Hnet. simpl.
        apply bool_decide_eq_false_2. lia.
      * intros value Hin. rewrite !elem_of_cons in Hin.
        destruct Hin as [?|[?|Hin]]; try done. by apply (Hnf value).
  - destruct p as [|[a|]|reason]; [done| | |].
    + destruct IH as [(i & u & r' & Hlast & Hrest) Hnr]. split.
      * exists i, u, r'. split; [|done]. simpl.
        destruct (fetches acts); [done|done].
      * intros reason Hin. rewrite !elem_of_cons in Hin.
        destruct Hin as [?|[?|[?|Hin]]]; try done. by apply (Hnr reason).
    + destruct IH as (Habs & _). by destruct E.
    + destruct IH as (-> & Hne' & Hall & Hf & Hnf).
      rewrite (matching_from_first _ _ _ _ _ Hfm). simpl.
      repeat split; try done; try (by rewrite Hf).
      * constructor; [|done]. simpl. rewrite Hnet. simpl.
        apply bool_decide_eq_false_2. lia.
      * intros value Hin. rewrite !elem_of_cons in Hin.
        destruct Hin as [?|[?|[?|Hin]]]; try done. by apply (Hnf value).
  - destruct p as [|[a|]|reason]; [done| | |].
    + destruct IH as [(i & u & r' & Hlast & Hrest) Hnr]. split.
      * exists i, u, r'. split; [|done]. simpl.
        destruct (fetches acts); [done|done].
      * intros reason Hin. rewrite !elem_of_cons in Hin.
        destruct Hin as [?|[?|[?|Hin]]]; try done. by apply (Hnr reason).
    + destruct IH as (Habs & _). by destruct E.
    + destruct IH as (-> & Hne' & Hall & Hf & Hnf).
      rewrite (matching_from_first _ _ _ _ _ Hfm). simpl.
      repeat split; try done; try (by rewrite Hf).
      * constructor; [|done]. simpl. by rewrite Hnet.
      * intros value Hin. rewrite !elem_of_cons in Hin.
        destruct Hin as [?|[?|[?|Hin]]]; try done. by apply (Hnf value).
Qed.

(** After a request that settles as a failure the entry is pushed, and
    the call goes on to the next source that lists the type; with none
    left it rejects. *)
Lemma resolves_failure_next k E acts E' a' p i u :
  resolves arr t a0 net k E acts E' a' p →
  CallGot i u ∈ acts → is_failure (net i u) = true →
  ∃ L1 L2,
    acts = L1 ++ CallGot i u :: PushError (mkFailure u (net i u)) :: L2 ∧
    (∀ j s, first_match arr (name t) (S i) j s →
       ∃ L3, L2 = CallUrlFunction j a0 :: CallGot j (urlFunction s a0) :: L3) ∧
    (no_match arr (name t) (S i) → L2 = [CallReject E'] ∧ E' ≠ []).
Proof.
  intros Hres Hin Hfail.
  induction Hres as [k Hno|k E Hno HE|k E j s r0 Hfm Hnet0 Hst0
    |k E j s r0 acts E' a' p Hfm Hnet0 Hst0 Hres IH
    |k E j s r0 acts E' a' p Hfm Hnet0 Hst0 Hne Hres IH
    |k E j s err acts E' a' p Hfm Hnet0 Hres IH].
  1,2: apply list_elem_of_singleton in Hin; done.
  - rewrite !elem_of_cons in Hin.
    destruct Hin as [?|[Heq|[?|[?|Hnil]]]]; try done; [|inversion Hnil].
    simplify_eq. rewrite Hnet0 in Hfail. simpl in Hfail.
    apply bool_decide_eq_true in Hfail. lia.
  - rewrite !elem_of_cons in Hin. destruct Hin as [?|[Heq|Hin]]; [done| |].
    + simplify_eq. rewrite Hnet0 in Hfail. simpl in Hfail.
      apply bool_decide_eq_true in Hfail. lia.
    + destruct (IH Hin) as (L1 & L2 & -> & HL2).
      by exists (CallUrlFunction j a0 :: CallGot j (urlFunction s a0) :: L1), L2.
  - rewrite !elem_of_cons in Hin.
    destruct Hin as [?|[Heq|[?|Hin]]]; [done| |done|].
    + simplify_eq. rewrite Hnet0. exists [CallUrlFunction j a0], acts.
      split; [done|]. split.
      * intros j' s'. by eapply resolves_head_match.
      * intros Hno.
        destruct (resolves_inv_none _ _ _ _ _ _ _ _ _ _ Hres Hno)
          as (-> & _ & [(Habs & _)|(Hne' & -> & _)]); [|done].
        by destruct E.
    + destruct (IH Hin) as (L1 & L2 & -> & HL2).
      by eexists (_ :: _ :: _ :: L1), L2.
  - rewrite !elem_of_cons in Hin.
    destruct Hin as [?|[Heq|[?|Hin]]]; [done| |done|].
    + simplify_eq. rewrite Hnet0. exists [CallUrlFunction j a0], acts.
      split; [done|]. split.
      * intros j' s'. by eapply resolves_head_match.
      * intros Hno.
        destruct (resolves_inv_none _ _ _ _ _ _ _ _ _ _ Hres Hno)
          as (-> & _ & [(Habs & _)|(Hne' & -> & _)]); [|done].
        by destruct E.
    + destruct (IH Hin) as (L1 & L2 & -> & HL2).
      by eexists (_ :: _ :: _ :: L1), L2.
Qed.

(** Every invocation of a [urlFunction] is given the empty asset and is
    followed at once by the request for the url it returned. *)
Lemma resolves_invoked k E acts E' a' p i a :
  resolves arr t a0 net k E acts E' a' p →
  CallUrlFunction i a ∈ acts →
  a = a0 ∧
  ∃ s L1 L2, arr !! i = Some s ∧ name t ∈ types s ∧
    acts = L1 ++ CallUrlFunction i a0 :: CallGot i (urlFunction s a0) :: L2.
Proof.
  intros Hres Hin.
  induction Hres as [k Hno|k E Hno HE|k E j s r0 Hfm Hnet0 Hst0
    |k E j s r0 acts E' a' p Hfm Hnet0 Hst0 Hres IH
    |k E j s r0 acts E' a' p Hfm Hnet0 Hst0 Hne Hres IH
    |k E j s err acts E' a' p Hfm Hnet0 Hres IH].
  1,2: apply list_elem_of_singleton in Hin; done.
  all: pose proof Hfm as (_ & Hs & Hlisted & _).
  - rewrite !elem_of_cons in Hin.
    destruct Hin as [Heq|[?|[?|[?|Hnil]]]]; try done; [|inversion Hnil].
    simplify_eq. split; [done|]. by eexists s, [], [_; _].
  - rewrite !elem_of_cons in Hin. destruct Hin as [Heq|[?|Hin]]; [|done|].
    + simplify_eq. split; [done|]. by exists s, [], acts.
    + destruct (IH Hin) as (-> & s' & L1 & L2 & Hs' & Hl' & ->).
      split; [done|]. by eexists s', (_ :: _ :: L1), L2.
  - rewrite !elem_of_cons in Hin.
    destruct Hin as [Heq|[?|[?|Hin]]]; [|done|done|].
    + simplify_eq. split; [done|]. by eexists s, [], (_ :: acts).
    + destruct (IH Hin) as (-> & s' & L1 & L2 & Hs' & Hl' & ->).
      split; [done|]. by eexists s', (_ :: _ :: _ :: L1), L2.
  - rewrite !elem_of_cons in Hin.
    destruct Hin as [Heq|[?|[?|Hin]]]; [|done|done|].
    + simplify_eq. split; [done|]. by eexists s, [], (_ :: acts).
    + destruct (IH Hin) as (-> & s' & L1 & L2 & Hs' & Hl' & ->).
      split; [done|]. by eexists s', (_ :: _ :: _ :: L1), L2.
Qed.

End Further.

Lemma asked_no_success net a0 cs :
  Forall (λ p, is_success (net p.1 (urlFunction p.2 a0)) = false) cs →
  asked net a0 cs = map (request_of a0) cs.
Proof.
  induction 1 as [|p cs Hp _ IH]; simpl; [done|]. by rewrite Hp, IH.
Qed.

Lemma run_load_asked this t id net h :
  fetches (log (run_load this t id net h)) =
    asked net (new_Asset t id)
      (matching_sources (array_get h (sources this)) (name t)).
Proof.
  destruct (run_load_resolves this t id net h)
    as (acts & E' & a' & p & k' & Hres & Hrun).
  rewrite Hrun. simpl.
  by rewrite (resolves_asked _ _ _ _ _ _ _ _ _ _ Hres).
Qed.

(** X1: the requests of a call are fixed by the copied array and the
    network: the sources listing the type are asked in array order, each
    for the url its [urlFunction] gives, up to and including the first
    that answers with a 2xx status. *)
Theorem load_requests this t id net h :
  let a0 := new_Asset t id in
  let c := run_load this t id net h in
  fetches (log c) =
    asked net a0 (matching_sources (array_get h (sources this)) (name t)).
Proof.
  intros a0 c.
  destruct (run_load_resolves this t id net h)
    as (acts & E' & a' & p & k' & Hres & Hrun).
  subst c. rewrite Hrun. simpl.
  rewrite (resolves_asked _ _ _ _ _ _ _ _ _ _ Hres).
  by rewrite matching_sources_from.
Qed.

(** X2: [errors] holds exactly the entries pushed during the call, and
    those are one entry per request that settled as a failure, in request
    order, each with the url requested and the way the request settled. *)
Theorem load_errors this t id net h :
  let c := run_load this t id net h in
  errors c = pushed (log c) ∧
  errors c = omap (failure_of net) (fetches (log c)) ∧
  Forall (λ e, is_failure (result e) = true ∧
               ∃ i, CallGot i (url e) ∈ log c ∧ result e = net i (url e))
    (errors c).
Proof.
  intros c.
  destruct (run_load_resolves this t id net h)
    as (acts & E' & a' & p & k' & Hres & Hrun).
  subst c. rewrite Hrun. simpl.
  pose proof (resolves_pushed _ _ _ _ _ _ _ _ _ _ Hres) as Hp.
  pose proof (resolves_errors _ _ _ _ _ _ _ _ _ _ Hres) as He.
  simpl in Hp, He. split; [done|]. split; [done|].
  rewrite He. apply Forall_forall. intros e Hin.
  apply list_elem_of_omap in Hin as ([i u] & Hiu & Hf).
  unfold failure_of in Hf. simpl in Hf.
  destruct (is_failure (net i u)) eqn:Hfail; simplify_eq/=.
  split; [done|]. exists i. split; [|done]. by apply elem_of_fetches.
Qed.

(** X3: when no source listing the type answers with a 2xx status, every
    such source is asked, the asset stays empty, and the call rejects with
    [errors] if anything was recorded and fulfills with [null] otherwise: a
    single failure among 404 answers is enough to reject. *)
Theorem load_without_success this t id net h :
  let arr := array_get h (sources this) in
  let a0 := new_Asset t id in
  let c := run_load this t id net h in
  let candidates := matching_sources arr (name t) in
  (∀ i s, arr !! i = Some s → name t ∈ types s →
          is_success (net i (urlFunction s a0)) = false) →
  fetches (log c) = map (request_of a0) candidates ∧
  errors c = omap (failure_of net) (map (request_of a0) candidates) ∧
  asset c = a0 ∧
  (errors c = [] → promise c = Fulfilled None) ∧
  (errors c ≠ [] → promise c = Rejected (errors c)).
Proof.
  intros arr a0 c candidates Hns.
  assert (Hf : fetches (log c) = map (request_of a0) candidates).
  { unfold c. rewrite run_load_asked. apply asked_no_success.
    apply Forall_forall. intros [i s] Hin.
    apply matching_sources_listed in Hin as [Hs Hl]. by apply Hns. }
  destruct (run_load_resolves this t id net h)
    as (acts & E' & a' & p & k' & Hres & Hrun).
  subst c. rewrite Hrun in *. simpl in *. fold arr a0 in Hres.
  pose proof (resolves_errors _ _ _ _ _ _ _ _ _ _ Hres) as He.
  pose proof (resolves_outcome _ _ _ _ _ _ _ _ _ _ Hres) as Hout.
  pose proof (resolves_asset _ _ _ _ _ _ _ _ _ _ Hres) as [_ Has].
  pose proof (resolves_fetches _ _ _ _ _ _ _ _ _ _ Hres) as Hfs.
  simpl in He. rewrite Hf in He.
  destruct p as [|[a|]|reason]; [done| | |].
  - exfalso. destruct Hout as [(i & u & r & Hlast & Hnet & Hst & _) _].
    apply last_Some_elem_of in Hlast. rewrite Forall_forall in Hfs.
    destruct (Hfs _ Hlast) as (_ & s & Hs & Hl & Hu). simpl in *. subst u.
    specialize (Hns i s Hs Hl). rewrite Hnet in Hns. simpl in Hns.
    apply bool_decide_eq_false in Hns. lia.
  - destruct Has as [-> _]. destruct Hout as (_ & -> & _).
    repeat split; try done.
  - destruct Has as [-> _]. destruct Hout as (-> & Hne & _).
    repeat split; try done.
Qed.

(** X4: how a call ended tells what happened.  Fulfilled with the asset:
    the last request was answered 2xx, the asset holds that body, and
    [reject] was never called, whatever [errors] had gathered.  Fulfilled
    with [null]: every source listing the type was asked and answered 404.
    Rejected: the reason is [errors], it is not empty, every source listing
    the type was asked, none answered 2xx, and [fulfill] was never
    called. *)
Theorem load_outcome this t id net h :
  let a0 := new_Asset t id in
  let c := run_load this t id net h in
  let candidates := matching_sources (array_get h (sources this)) (name t) in
  match promise c with
  | Fulfilled (Some a) =>
      (∃ i u r, last (fetches (log c)) = Some (i, u) ∧
                net i u = Responded r ∧ 200 ≤ status r < 300 ∧
                a = setData a0 (body r) (runtimeFormat t)) ∧
      ∀ reason, CallReject reason ∉ log c
  | Fulfilled None =>
      errors c = [] ∧
      Forall (λ iu, ∃ r, net iu.1 iu.2 = Responded r ∧ status r = 404)
        (fetches (log c)) ∧
      fetches (log c) = map (request_of a0) candidates
  | Rejected reason =>
      reason = errors c ∧ reason ≠ [] ∧
      Forall (λ iu, is_success (net iu.1 iu.2) = false) (fetches (log c)) ∧
      fetches (log c) = map (request_of a0) candidates ∧
      ∀ value, CallFulfill value ∉ log c
  | Pending => False
  end.
Proof.
  intros a0 c candidates.
  destruct (run_load_resolves this t id net h)
    as (acts & E' & a' & p & k' & Hres & Hrun).
  subst c. rewrite Hrun. simpl.
  pose proof (resolves_outcome _ _ _ _ _ _ _ _ _ _ Hres) as Hout.
  destruct p as [|[a|]|reason]; try done.
  - by destruct Hout as (_ & -> & Hall & Hf).
  - destruct Hout as (-> & Hne & Hall & Hf & Hnf). by repeat split.
Qed.

(** X5: a [urlFunction] is only ever given the asset as constructed from
    [assetType] and [assetId], before any data is set; it belongs to a
    source listing the type, and the next thing the call does is request
    the url it returned. *)
Theorem load_invocations this t id net h i a :
  let arr := array_get h (sources this) in
  let c := run_load this t id net h in
  CallUrlFunction i a ∈ log c →
  a = new_Asset t id ∧ data a = None ∧ dataFormat a = None ∧
  ∃ s L1 L2, arr !! i = Some s ∧ name t ∈ types s ∧
    log c = L1 ++ CallUrlFunction i a :: CallGot i (urlFunction s a) :: L2.
Proof.
  intros arr c Hin.
  destruct (run_load_resolves this t id net h)
    as (acts & E' & a' & p & k' & Hres & Hrun).
  subst c. rewrite Hrun in *. simpl in *.
  destruct (resolves_invoked _ _ _ _ _ _ _ _ _ _ _ _ Hres Hin)
    as (-> & s & L1 & L2 & Hs & Hl & ->).
  repeat split; try done. by exists s, L1, L2.
Qed.

(** X6: a request that settles as a failure (a transport error, or a
    status that is neither 2xx nor 404) has its entry pushed on [errors]
    right away and kept; the call then goes on to the next source listing
    the type, and with none left it rejects.  From then on the call cannot
    fulfill with [null]. *)
Theorem load_failure_goes_on this t id net h i u :
  let arr := array_get h (sources this) in
  let a0 := new_Asset t id in
  let c := run_load this t id net h in
  CallGot i u ∈ log c → is_failure (net i u) = true →
  (∃ L1 L2,
     log c = L1 ++ CallGot i u :: PushError (mkFailure u (net i u)) :: L2 ∧
     (∀ j s, first_match arr (name t) (S i) j s →
        ∃ L3, L2 = CallUrlFunction j a0 ::
                   CallGot j (urlFunction s a0) :: L3) ∧
     (no_match arr (name t) (S i) →
        L2 = [CallReject (errors c)] ∧ promise c = Rejected (errors c))) ∧
  mkFailure u (net i u) ∈ errors c ∧
  promise c ≠ Fulfilled None.
Proof.
  intros arr a0 c Hin Hfail.
  destruct (run_load_resolves this t id net h)
    as (acts & E' & a' & p & k' & Hres & Hrun).
  subst c. rewrite Hrun in *. simpl in *. fold arr a0 in Hres.
  destruct (resolves_failure_next _ _ _ _ _ _ _ _ _ _ _ _ Hres Hin Hfail)
    as (L1 & L2 & HL & Hnext & Hlast).
  assert (Hentry : mkFailure u (net i u) ∈ E').
  { rewrite (resolves_errors _ _ _ _ _ _ _ _ _ _ Hres). simpl.
    apply list_elem_of_omap. exists (i, u). split; [by apply elem_of_fetches|].
    unfold failure_of. simpl. by rewrite Hfail. }
  pose proof (resolves_outcome _ _ _ _ _ _ _ _ _ _ Hres) as Hout.
  split; [|split; [done|]].
  - exists L1, L2. split; [done|]. split; [done|].
    intros Hno. destruct (Hlast Hno) as [-> Hne]. split; [done|].
    destruct p as [|[a|]|reason]; [done| | |].
    + destruct Hout as [_ Hnr]. exfalso. apply (Hnr E'). rewrite HL.
      rewrite elem_of_app, !elem_of_cons. right; right; right; by left.
    + by destruct Hout as (_ & ? & _).
    + by destruct Hout as (-> & _).
  - intros ->. destruct Hout as (_ & -> & _). inversion Hentry.
Qed.

Lemma while_loop_exit arr wanted k :
  (while_loop arr wanted k).1 = None →
  (while_loop arr wanted k).2 = (k `max` length arr)%nat.
Proof.
  funelim (while_loop arr wanted k).
  all: try (rewrite <- Heqcall; clear Heqcall).
  - simpl. lia.
  - destruct (decide (0 ≤ indexOf (types source) wanted)) as [Hm|Hm];
      [done|].
    intros Hnone. rewrite (H Hm Hnone). lia.
  - apply lookup_ge_None in Heq. lia.
Qed.

(** X7: the scan.  From cursor [k] the loop stops at the first source at
    or after [k] whose types contain the wanted name, hands back that
    source's [urlFunction] and leaves the cursor one past it, inside the
    array.  When no such source exists it hands back nothing and leaves the
    cursor at the end of the array (or where it was, if already past the
    end). *)
Theorem while_loop_scan arr wanted k :
  match while_loop arr wanted k with
  | (Some f, k') =>
      ∃ j s, k' = S j ∧ first_match arr wanted k j s ∧ f = urlFunction s ∧
             (k < k' ≤ length arr)%nat
  | (None, k') => no_match arr wanted k ∧ k' = (k `max` length arr)%nat
  end.
Proof.
  pose proof (while_loop_spec arr wanted k) as Hspec.
  pose proof (while_loop_exit arr wanted k) as Hexit.
  destruct (while_loop arr wanted k) as [[f|] k'].
  - destruct Hspec as (j & s & -> & Hfm & ->). exists j, s.
    pose proof Hfm as (Hkj & Hs%lookup_lt_Some & _).
    split; [done|]. split; [done|]. split; [done|]. lia.
  - destruct Hspec as [_ Hno]. split; [done|]. by apply Hexit.
Qed.

Lemma run_load_same_registry this t id net (h1 h2 : heap) :
  array_get h1 (sources this) = array_get h2 (sources this) →
  log (run_load this t id net h1) = log (run_load this t id net h2) ∧
  promise (run_load this t id net h1) = promise (run_load this t id net h2) ∧
  errors (run_load this t id net h1) = errors (run_load this t id net h2) ∧
  asset (run_load this t id net h1) = asset (run_load this t id net h2).
Proof.
  intros Heq.
  destruct (run_load_resolves this t id net h1)
    as (acts1 & E1 & a1 & p1 & k1 & Hres1 & ->).
  destruct (run_load_resolves this t id net h2)
    as (acts2 & E2 & a2 & p2 & k2 & Hres2 & ->).
  rewrite Heq in Hres1. simpl.
  by destruct (resolves_deterministic _ _ _ _ _ _ _ _ _ _ Hres1 _ _ _ _ Hres2)
    as (-> & -> & -> & ->).
Qed.

(** X8: loading is repeatable.  A call made after an earlier call, however
    that one's requests settled, does what it would have done before it:
    same actions, same outcome. *)
Theorem load_repeatable this t id net h t' id' os :
  let h' := w_heap (steps (start this t' id' h) (map DoSettle os)) in
  log (run_load this t id net h') = log (run_load this t id net h) ∧
  promise (run_load this t id net h') = promise (run_load this t id net h) ∧
  errors (run_load this t id net h') = errors (run_load this t id net h) ∧
  asset (run_load this t id net h') = asset (run_load this t id net h).
Proof.
  intros h'. apply run_load_same_registry. unfold h'.
  destruct (steps_settlements os (start this t' id' h)) as [-> _].
  change (w_heap (start this t' id' h))
    with (array_slice (sources this) h).2.
  rewrite array_slice_keeps. by case_decide.
Qed.

Lemma run_load_unlisted this t id net h :
  (∀ s, s ∈ array_get h (sources this) → name t ∉ types s) →
  promise (run_load this t id net h) = Fulfilled None ∧
  log (run_load this t id net h) = [CallFulfill None].
Proof.
  intros Hall.
  destruct (run_load_resolves this t id net h)
    as (acts & E' & a' & p & k' & Hres & Hrun).
  rewrite Hrun. simpl.
  pose proof (no_match_forall _ _ Hall 0%nat) as Hno.
  by destruct (resolves_inv_none _ _ _ _ _ _ _ _ _ _ Hres Hno)
    as (_ & _ & [(_ & -> & ->)|(? & _)]).
Qed.

(** X9: a new helper has its own, empty source array: the array is newly
    allocated (its location was not in the heap before and holds the empty
    array after), every array already in the heap is left as it was, and
    any load on the new helper fulfills with [null] without a request. *)
Theorem constructor_fresh (h : heap) :
  let this := (constructor h).1 in
  let h' := (constructor h).2 in
  (sources this ∉ dom h) ∧
  h' !! sources this = Some [] ∧
  array_get h' (sources this) = [] ∧
  delete (sources this) h' = h ∧
  ∀ t id net,
    promise (run_load this t id net h') = Fulfilled None ∧
    log (run_load this t id net h') = [CallFulfill None].
Proof.
  intros this h'. unfold this, h', constructor, array_new. simpl.
  pose proof (is_fresh (dom h)) as Hfresh.
  assert (Hempty : array_get (<[fresh (dom h) := []]> h) (fresh (dom h)) = []).
  { unfold array_get. by rewrite lookup_insert_eq. }
  repeat split; try done.
  - by rewrite lookup_insert_eq.
  - rewrite delete_insert_eq. apply delete_id. by apply not_elem_of_dom.
  - apply run_load_unlisted. simpl. rewrite Hempty. intros s Hs. inversion Hs.
  - apply run_load_unlisted. simpl. rewrite Hempty. intros s Hs. inversion Hs.
Qed.

(** X10: register, then load.  When no source registered so far lists the
    type and a source is registered for it, a load asks exactly that source,
    for the url its [urlFunction] gives for the empty asset, and the way
    that one request settles decides the call: 2xx fulfills with the body,
    404 fulfills with [null], anything else rejects with the one entry. *)
Theorem addSource_then_load this ts f t id net (h : heap) :
  let a0 := new_Asset t id in
  let n := length (array_get h (sources this)) in
  let u := f a0 in
  let c := run_load this t id net (addSource this ts f h) in
  (∀ s, s ∈ array_get h (sources this) → name t ∉ types s) →
  t ∈ ts →
  fetches (log c) = [(n, u)] ∧
  match net n u with
  | Responded r =>
      if decide (200 ≤ status r < 300) then
        promise c = Fulfilled (Some (setData a0 (body r) (runtimeFormat t)))
      else if decide (status r = 404) then
        promise c = Fulfilled None ∧ errors c = []
      else
        promise c = Rejected [mkFailure u (Responded r)]
  | Failed err => promise c = Rejected [mkFailure u (Failed err)]
  end.
Proof.
  intros a0 n u c Hold Hin.
  destruct (run_load_resolves this t id net (addSource this ts f h))
    as (acts & E' & a' & p & k' & Hres & Hrun).
  subst c. rewrite Hrun. simpl.
  unfold addSource in Hres. rewrite array_get_push_eq in Hres.
  fold a0 in Hres.
  set (arr := array_get h (sources this)) in *.
  set (rec := {| types := map name ts; urlFunction := f |}) in *.
  assert (Hfm : first_match (arr ++ [rec]) (name t) 0 n rec).
  { split; [lia|]. split; [by apply list_lookup_middle|]. split.
    - simpl. apply list_elem_of_fmap. by exists t.
    - intros i s' Hi Hs'. rewrite lookup_app_l in Hs' by (unfold n in Hi; lia).
      apply Hold. by eapply list_elem_of_lookup_2. }
  assert (Hno : no_match (arr ++ [rec]) (name t) (S n)).
  { intros i s' Hi Hs'. apply lookup_lt_Some in Hs'.
    rewrite length_app in Hs'. simpl in Hs'. unfold n in Hi. lia. }
  pose proof (resolves_inv _ _ _ _ _ _ _ _ _ _ _ _ Hres Hfm) as Hinv.
  simpl in Hinv. fold u in Hinv.
  destruct (net n u) as [r|err].
  - destruct (decide (200 ≤ status r < 300)) as [Hok|Hnok].
    + by destruct Hinv as (-> & _ & _ & ->).
    + destruct (decide (status r = 404)) as [Hmiss|Hbad].
      * destruct Hinv as (rest & -> & Hrest).
        by destruct (resolves_inv_none _ _ _ _ _ _ _ _ _ _ Hrest Hno)
          as (-> & _ & [(_ & -> & ->)|(? & _)]).
      * destruct Hinv as (rest & -> & Hrest).
        by destruct (resolves_inv_none _ _ _ _ _ _ _ _ _ _ Hrest Hno)
          as (-> & _ & [(? & _)|(_ & -> & ->)]).
  - destruct Hinv as (rest & -> & Hrest).
    by destruct (resolves_inv_none _ _ _ _ _ _ _ _ _ _ Hrest Hno)
      as (-> & _ & [(? & _)|(_ & -> & ->)]).
Qed.

(** X11: two helpers never share sources.  Helpers constructed one after
    the other hold different arrays; registering a source with the second
    leaves the first one's array as it was, and every load on the first
    does what it did before. *)
Theorem helpers_do_not_share (h : heap) ts f :
  let w1 := (constructor h).1 in
  let h1 := (constructor h).2 in
  let w2 := (constructor h1).1 in
  let h2 := (constructor h1).2 in
  sources w1 ≠ sources w2 ∧
  array_get (addSource w2 ts f h2) (sources w1) = array_get h2 (sources w1) ∧
  array_get (addSource w2 ts f h2) (sources w1) = [] ∧
  ∀ t id net,
    log (run_load w1 t id net (addSource w2 ts f h2)) =
      log (run_load w1 t id net h2) ∧
    promise (run_load w1 t id net (addSource w2 ts f h2)) =
      promise (run_load w1 t id net h2).
Proof.
  intros w1 h1 w2 h2.
  assert (Hne : sources w2 ≠ sources w1).
  { unfold w2, w1, h1, constructor, array_new. simpl.
    intros Heq. pose proof (is_fresh (dom (<[fresh (dom h) := []]> h))) as Hf.
    rewrite Heq in Hf. apply Hf. rewrite dom_insert_L. set_solver. }
  assert (Hkeep : array_get (addSource w2 ts f h2) (sources w1) =
                  array_get h2 (sources w1)).
  { unfold addSource. by rewrite array_get_push_ne. }
  split; [done|]. split; [done|]. split.
  - rewrite Hkeep. unfold h2, constructor, array_new. simpl.
    unfold array_get. rewrite lookup_insert_ne by done.
    unfold w1, h1, constructor, array_new. simpl. by rewrite lookup_insert_eq.
  - intros t id net.
    by destruct (run_load_same_registry w1 t id net _ _ Hkeep) as (? & ? & _).
Qed.

Lemma steps_idle ins : ∀ w,
  awaiting (w_call w) = None → w_call (steps w ins) = w_call w.
Proof.
  induction ins as [|[ts f|o] ins IH]; intros w Haw; simpl; [done| |].
  - exact (IH (step w (DoAddSource ts f)) Haw).
  - assert (Hs : settle (w_heap w) o (w_call w) = w_call w).
    { unfold settle. by rewrite Haw. }
    pose proof (IH (step w (DoSettle o))) as Hstep. simpl in Hstep.
    rewrite Hs in Hstep |- *. by apply Hstep.
Qed.

(** X12: a settled call is final.  Once the promise is fulfilled or
    rejected nothing is outstanding, and no later settlement or
    registration changes the call: its promise, asset, [errors] and log
    stay as they are. *)
Theorem settled_is_final this t id h ins1 ins2 :
  let w1 := steps (start this t id h) ins1 in
  promise (w_call w1) ≠ Pending →
  awaiting (w_call w1) = None ∧
  w_call (steps (start this t id h) (ins1 ++ ins2)) = w_call w1.
Proof.
  intros w1 Hp.
  assert (Hok : call_ok (w_call w1)).
  { apply steps_ok. apply load_ok. }
  assert (Haw : awaiting (w_call w1) = None).
  { unfold call_ok in Hok. destruct (awaiting (w_call w1)); [|done].
    by destruct Hok. }
  split; [done|].
  unfold steps. rewrite fold_left_app. by apply steps_idle.
Qed.

Lemma tryNextSource_bound (h : heap) c :
  (sourceIndex c ≤ length (array_get h (c_sources c)))%nat →
  (sourceIndex (tryNextSource h c)
     ≤ length (array_get h (c_sources c)))%nat.
Proof.
  intros Hle. unfold tryNextSource.
  pose proof (while_loop_spec (array_get h (c_sources c))
                (name (c_assetType c)) (sourceIndex c)) as Hspec.
  pose proof (while_loop_exit (array_get h (c_sources c))
                (name (c_assetType c)) (sourceIndex c)) as Hexit.
  destruct (while_loop _ _ _) as [[f|] k']; simpl in *.
  - destruct Hspec as (j & s & -> & (_ & Hs%lookup_lt_Some & _) & _). lia.
  - rewrite (Hexit eq_refl). case_decide; simpl; lia.
Qed.

Lemma settle_bound (h : heap) o c :
  (sourceIndex c ≤ length (array_get h (c_sources c)))%nat →
  (sourceIndex (settle h o c) ≤ length (array_get h (c_sources c)))%nat.
Proof.
  intros Hle. unfold settle. destruct (awaiting c) as [u|]; [|done].
  destruct o as [r|err]; unfold on_response, on_error.
  - repeat case_decide; try done.
    + by apply (tryNextSource_bound h (errors_push _ (set_awaiting None c))).
    + by apply (tryNextSource_bound h (set_awaiting None c)).
  - by apply (tryNextSource_bound h (errors_push _ (set_awaiting None c))).
Qed.

(** X13: the cursor stays within the copied array.  Under any schedule of
    settlements and registrations [sourceIndex] is at most the length the
    helper's array had when [load] was invoked, so [sources[sourceIndex]] is
    only ever read inside the array. *)
Theorem cursor_in_bounds this t id h ins :
  sources this ∈ dom h →
  (sourceIndex (w_call (steps (start this t id h) ins))
     ≤ length (array_get h (sources this)))%nat.
Proof.
  intros Hdom.
  set (w0 := start this t id h).
  assert (Hl : c_sources (w_call w0) = (array_slice (sources this) h).1).
  { unfold w0, start, load, array_slice; simpl.
    by rewrite tryNextSource_sources. }
  assert (Hne : c_sources (w_call w0) ≠ sources (w_helper w0)).
  { rewrite Hl. by apply array_slice_fresh. }
  assert (Harr : array_get (w_heap w0) (c_sources (w_call w0)) =
                 array_get h (sources this)).
  { rewrite Hl. apply array_slice_copy. }
  assert (H0 : (sourceIndex (w_call w0)
                  ≤ length (array_get (w_heap w0) (c_sources (w_call w0))))%nat).
  { unfold w0, start, load, array_slice. simpl.
    rewrite tryNextSource_sources. simpl.
    match goal with |- context [tryNextSource ?hh ?cc] =>
      pose proof (tryNextSource_bound hh cc) as Hb end.
    simpl in Hb. apply Hb. lia. }
  rewrite <- Harr. clear Harr Hl Hdom.
  revert Hne H0. generalize w0. clear w0.
  induction ins as [|[ts f|o] ins IH]; intros w Hne H0; simpl; [done| |].
  - specialize (IH (step w (DoAddSource ts f))). simpl in IH.
    unfold addSource in IH. rewrite array_get_push_ne in IH by done.
    by apply IH.
  - specialize (IH (step w (DoSettle o))). simpl in IH.
    rewrite settle_sources in IH. apply IH; [done|].
    by apply settle_bound.
Qed.

(** ** The further properties on the sample helper *)

Import Sample2.

Lemma load_without_success_witness :
  let c := run_load helper Project "1" net_miss_then_down registry in
  promise c = Rejected [ {| url := "https://mirror.example/1";
                            result := answer 500 [] |} ] ∧
  fetches (log c) = [(1%nat, "https://projects.example/1");
                     (2%nat, "https://mirror.example/1")].
Proof.
  intros c.
  destruct (load_without_success helper Project "1" net_miss_then_down
              registry) as (Hf & He & _ & _ & Hrej).
  { intros i s _ _. unfold net_miss_then_down. by case_decide. }
  fold c in Hf, He, Hrej.
  assert (Hne : errors c ≠ []) by (rewrite He; vm_compute; discriminate).
  split; [|exact Hf]. rewrite (Hrej Hne), He. reflexivity.
Defined.

Lemma load_invocations_witness :
  let c := run_load helper Project "1" net_ok registry in
  CallUrlFunction 1 (new_Asset Project "1") ∈ log c ∧
  ∃ s L1 L2, entries !! 1%nat = Some s ∧
    log c = L1 ++ CallUrlFunction 1 (new_Asset Project "1") ::
                  CallGot 1 (urlFunction s (new_Asset Project "1")) :: L2.
Proof.
  intros c.
  assert (Hin : CallUrlFunction 1 (new_Asset Project "1") ∈ log c)
    by (vm_compute; repeat constructor).
  split; [exact Hin|].
  destruct (load_invocations helper Project "1" net_ok registry 1%nat
              (new_Asset Project "1") Hin)
    as (_ & _ & _ & s & L1 & L2 & Hs & _ & HL).
  exists s, L1, L2. split; [exact Hs|exact HL].
Defined.

Lemma load_failure_goes_on_witness :
  let c := run_load helper Project "1" net_error_then_ok registry in
  {| url := "https://projects.example/1"; result := Failed "ETIMEDOUT" |}
    ∈ errors c ∧
  promise c ≠ Fulfilled None.
Proof.
  intros c.
  assert (Hin : CallGot 1 "https://projects.example/1" ∈ log c)
    by (vm_compute; repeat constructor).
  destruct (load_failure_goes_on helper Project "1" net_error_then_ok
              registry 1%nat "https://projects.example/1" Hin eq_refl)
    as (_ & He & Hp).
  split; [exact He|exact Hp].
Defined.

Lemma addSource_then_load_witness :
  let c := run_load helper Sound "7" net_ok
             (addSource helper [Sound] assetHost (constructor ∅).2) in
  fetches (log c) = [(0%nat, "https://assets.example/7")] ∧
  promise c = Fulfilled (Some (setData (new_Asset Sound "7") payload "WAV")).
Proof.
  intros c.
  destruct (addSource_then_load helper [Sound] assetHost Sound "7" net_ok
              (constructor ∅).2) as [Hf Hp].
  { intros s Hs. inversion Hs. }
  { by constructor. }
  split; [exact Hf|exact Hp].
Defined.

Lemma settled_is_final_witness :
  let ins1 := [DoSettle (answer 200 payload)] in
  let ins2 := [DoSettle (answer 500 []); DoAddSource [Project] assetHost] in
  let w1 := steps (start helper Project "1" registry) ins1 in
  promise (w_call w1) ≠ Pending ∧
  w_call (steps (start helper Project "1" registry) (ins1 ++ ins2)) =
    w_call w1.
Proof.
  intros ins1 ins2 w1.
  assert (Hp : promise (w_call w1) ≠ Pending) by (vm_compute; discriminate).
  split; [exact Hp|].
  by destruct (settled_is_final helper Project "1" registry ins1 ins2 Hp)
    as [_ Hsame].
Defined.

Lemma cursor_in_bounds_witness :
  let ins := [DoSettle (answer 404 []);
              DoAddSource [Project] assetHost;
              DoSettle (answer 404 [])] in
  sources helper ∈ dom registry ∧
  (sourceIndex (w_call (steps (start helper Project "1" registry) ins))
     ≤ 3)%nat.
Proof.
  intros ins. split; [exact helper_registered|].
  exact (cursor_in_bounds helper Project "1" registry ins helper_registered).
Defined.
